(** * Detail rendering (engine/detail_rendering.h): a shallow embedding

    The header declares the data model of the detail-normalmap pipeline and
    defines three inline functions: [DetailTextureData::clear],
    [get_square_grid_size_from_item_count] and
    [copy_2d_region_from_packed_to_atlased].  They are embedded below as the
    source has them: [int] and [unsigned int] are 32-bit and their
    wrap-around is written out, buffers are [Span]s (pointer and length)
    into one flat byte memory, and the [double] computation goes through the
    IEEE 754 binary64 operations of [SpecFloat]. *)

From Stdlib Require Import ZArith List Bool Lia Znumtheory.
From Stdlib Require Import Floats.SpecFloat.
Import ListNotations.

Local Open Scope Z_scope.

(** ** Machine integers *)

Module Int.

(** [unsigned int]: 32 bits, arithmetic modulo [2^32]. *)
Definition uint_modulus : Z := 2 ^ 32.
Definition UINT_MAX : Z := uint_modulus - 1.
Definition INT_MAX : Z := 2 ^ 31 - 1.
Definition INT_MIN : Z := - 2 ^ 31.
(** [size_t] of the 64-bit targets the engine is built for. *)
Definition SIZE_MAX : Z := 2 ^ 64 - 1.

Definition to_unsigned (z : Z) : Z := z mod uint_modulus.

(** [int]: 32 bits, two's complement; an overflowing signed operation is
    taken with the wrap-around the compiled code has. *)
Definition to_int (z : Z) : Z := (z + 2 ^ 31) mod uint_modulus - 2 ^ 31.

Definition is_int (z : Z) : Prop := INT_MIN <= z <= INT_MAX.
Definition is_uint (z : Z) : Prop := 0 <= z <= UINT_MAX.
Definition is_uint8 (z : Z) : Prop := 0 <= z <= 255.

Definition int_add (a b : Z) : Z := to_int (a + b).
Definition int_mul (a b : Z) : Z := to_int (a * b).
Definition uint_mul (a b : Z) : Z := to_unsigned (a * b).
Definition uint_add (a b : Z) : Z := to_unsigned (a + b).

End Int.

(** ** Vectors, spans and memory *)

(** [Vector2i]: two [int] components. *)
Record Vector2i : Type := mkVector2i { x : Z; y : Z }.

(** [Vector3i]: three [int] components. *)
Record Vector3i : Type := mkVector3i { vx : Z; vy : Z; vz : Z }.

(** [Span<uint8_t>]: a pointer and a [size_t] element count.  The pointer is
    an address of the flat byte memory. *)
Record Span : Type := mkSpan { data : Z; size : Z }.

(** Byte-addressed memory; a byte is its value in [0, 256). *)
Definition memory : Type := Z -> Z.

Definition span_get (m : memory) (s : Span) (i : Z) : Z := m (data s + i).

(** [Span::overlaps], declared in util/span.h: the two address ranges
    intersect. *)
Definition overlaps (a b : Span) : bool :=
  (data b <? data a + size a) && (data a <? data b + size b).

(** [memcpy(dst, src, n)] on disjoint ranges. *)
Definition memcpy (m : memory) (dst_p src_p n : Z) : memory :=
  fun a =>
    if (dst_p <=? a) && (a <? dst_p + n) then m (src_p + (a - dst_p)) else m a.

(** One [memcpy] of the copy loop, as recorded by the instrumented run. *)
Record access : Type := mkAccess { acc_dst : Z; acc_src : Z; acc_len : Z }.

(** ** copy_2d_region_from_packed_to_atlased *)

(** The arguments of one call. *)
Record copy_args : Type := mkCopyArgs {
  dst : Span;
  dst_size : Vector2i;
  src : Span;
  src_size : Vector2i;
  dst_pos : Vector2i;
  item_size_in_bytes : Z
}.

(** What the argument types guarantee: [int] components, an [unsigned int]
    item size, and spans that lie in the address space. *)
Record well_typed (a : copy_args) : Prop := mkWellTyped {
  wt_dst_x : Int.is_int (x (dst_size a));
  wt_dst_y : Int.is_int (y (dst_size a));
  wt_src_x : Int.is_int (x (src_size a));
  wt_src_y : Int.is_int (y (src_size a));
  wt_pos_x : Int.is_int (x (dst_pos a));
  wt_pos_y : Int.is_int (y (dst_pos a));
  wt_item : Int.is_uint (item_size_in_bytes a);
  wt_dst : 0 <= data (dst a) /\ 0 <= size (dst a) /\
           data (dst a) + size (dst a) <= Int.SIZE_MAX;
  wt_src : 0 <= data (src a) /\ 0 <= size (src a) /\
           data (src a) + size (src a) <= Int.SIZE_MAX
}.

(** The [ZN_ASSERT]s of the [DEBUG_ENABLED] block, evaluated as C++ evaluates
    them: sums and products of [int]s are [int]s, a product with
    [item_size_in_bytes] is an [unsigned int], and the comparison with
    [size()] is made on the unsigned value. *)
Definition debug_asserts (a : copy_args) : bool :=
  let sx := x (src_size a) in let sy := y (src_size a) in
  let dx := x (dst_size a) in let dy := y (dst_size a) in
  let px := x (dst_pos a) in let py := y (dst_pos a) in
  let item := item_size_in_bytes a in
  ((0 <=? sx) && (0 <=? sy))
  && ((0 <=? dx) && (0 <=? dy))
  && ((0 <=? px) && (0 <=? py)
      && (Int.int_add px sx <=? dx) && (Int.int_add py sy <=? dy))
  && (size (src a) =? Int.uint_mul (Int.to_unsigned (Int.int_mul sx sy)) item)
  && (size (dst a) =? Int.uint_mul (Int.to_unsigned (Int.int_mul dx dy)) item)
  && negb (overlaps (src a) (dst a)).

(** The loop: [rows] iterations remain; every iteration copies one row and
    advances both pointers.  The second component logs the [memcpy]s. *)
Fixpoint copy_rows (rows : nat) (m : memory) (log : list access)
    (dst_p src_p src_row_size dst_row_size : Z) : memory * list access :=
  match rows with
  | O => (m, log)
  | S rows' =>
      copy_rows rows'
        (memcpy m dst_p src_p src_row_size)
        (log ++ [mkAccess dst_p src_p src_row_size])
        (dst_p + dst_row_size) (src_p + src_row_size)
        src_row_size dst_row_size
  end.

Definition dst_begin_of (a : copy_args) : Z :=
  Int.uint_mul
    (Int.to_unsigned
       (Int.int_add (x (dst_pos a)) (Int.int_mul (y (dst_pos a)) (x (dst_size a)))))
    (item_size_in_bytes a).

Definition src_row_size_of (a : copy_args) : Z :=
  Int.uint_mul (Int.to_unsigned (x (src_size a))) (item_size_in_bytes a).

Definition dst_row_size_of (a : copy_args) : Z :=
  Int.uint_mul (Int.to_unsigned (x (dst_size a))) (item_size_in_bytes a).

(** The body after the assertions, with its access log.  Addresses are
    integers: the pointer sums are taken without the wrap of a 64-bit
    pointer, which is what the code does as long as every access stays
    inside the spans, as it does for well-typed arguments that meet the
    preconditions. *)
Definition copy_2d_region_run (m : memory) (a : copy_args) : memory * list access :=
  let dst_begin := dst_begin_of a in
  let src_row_size := src_row_size_of a in
  let dst_row_size := dst_row_size_of a in
  let dst_p := data (dst a) + dst_begin in
  let src_p := data (src a) in
  copy_rows (Z.to_nat (Int.to_unsigned (y (src_size a)))) m []
    dst_p src_p src_row_size dst_row_size.

(** The function as a release build has it: the memory after the call. *)
Definition copy_2d_region_from_packed_to_atlased (m : memory) (a : copy_args) : memory :=
  fst (copy_2d_region_run m a).

Definition copy_2d_region_accesses (m : memory) (a : copy_args) : list access :=
  snd (copy_2d_region_run m a).



(** The preconditions as the documentation states them, over the integers. *)
Record precondition (a : copy_args) : Prop := mkPrecondition {
  pre_src_nonneg : 0 <= x (src_size a) /\ 0 <= y (src_size a);
  pre_dst_nonneg : 0 <= x (dst_size a) /\ 0 <= y (dst_size a);
  pre_pos_nonneg : 0 <= x (dst_pos a) /\ 0 <= y (dst_pos a);
  pre_inside_x : x (dst_pos a) + x (src_size a) <= x (dst_size a);
  pre_inside_y : y (dst_pos a) + y (src_size a) <= y (dst_size a);
  pre_src_len :
    size (src a) = x (src_size a) * y (src_size a) * item_size_in_bytes a;
  pre_dst_len :
    size (dst a) = x (dst_size a) * y (dst_size a) * item_size_in_bytes a;
  pre_disjoint : overlaps (src a) (dst a) = false
}.

(** The destination's byte length is within [unsigned int], the type the
    function computes its offsets in. *)
Definition fits_unsigned (a : copy_args) : Prop :=
  x (dst_size a) * y (dst_size a) * item_size_in_bytes a <= Int.UINT_MAX.

(** A [memcpy] stays inside both buffers. *)
Definition access_in_bounds (a : copy_args) (c : access) : Prop :=
  0 <= acc_len c /\
  data (dst a) <= acc_dst c /\ acc_dst c + acc_len c <= data (dst a) + size (dst a) /\
  data (src a) <= acc_src c /\ acc_src c + acc_len c <= data (src a) + size (src a).

Definition access_in_boundsb (a : copy_args) (c : access) : bool :=
  (0 <=? acc_len c)
  && (data (dst a) <=? acc_dst c)
  && (acc_dst c + acc_len c <=? data (dst a) + size (dst a))
  && (data (src a) <=? acc_src c)
  && (acc_src c + acc_len c <=? data (src a) + size (src a)).

(** The offset of byte [b] of pixel [(px, py)] in a buffer whose rows are
    [width] pixels of [item] bytes. *)
Definition byte_offset (width item px py b : Z) : Z :=
  (py * width + px) * item + b.

(** ** DetailRenderingSettings *)

Record DetailRenderingSettings : Type := mkSettings {
  enabled : bool;
  begin_lod_index : Z;
  tile_resolution_min : Z;
  tile_resolution_max : Z;
  max_deviation_degrees : Z;
  octahedral_encoding_enabled : bool
}.

Definition MIN_DEVIATION_DEGREES : Z := 1.
Definition MAX_DEVIATION_DEGREES : Z := 179.

(** The member initialisers of the struct. *)
Definition default_settings : DetailRenderingSettings :=
  mkSettings false 2 4 8 60 false.

(** Settings the fields' types and the documented ranges allow. *)
Record valid_settings (s : DetailRenderingSettings) : Prop := mkValidSettings {
  vs_begin : Int.is_uint8 (begin_lod_index s);
  vs_min : Int.is_uint8 (tile_resolution_min s);
  vs_max : Int.is_uint8 (tile_resolution_max s);
  vs_order : tile_resolution_min s <= tile_resolution_max s;
  vs_deviation :
    MIN_DEVIATION_DEGREES <= max_deviation_degrees s <= MAX_DEVIATION_DEGREES
}.

(** [math::clamp]. *)
Definition clamp (v lo hi : Z) : Z :=
  if v <? lo then lo else if hi <? v then hi else v.

(** Modelled from the spec: the body of
    [get_detail_texture_tile_resolution_for_lod] (detail_rendering.cpp) is
    missing; the header only declares it.  The spec has it return
    [tile_resolution_min] at [begin_lod_index], doubled for each LOD index
    after it, clamped to [[tile_resolution_min, tile_resolution_max]].  Below
    [begin_lod_index] the power is 0 and the clamp yields the minimum. *)
Definition get_detail_texture_tile_resolution_for_lod
    (settings : DetailRenderingSettings) (lod_index : Z) : Z :=
  let relative_lod_index := lod_index - begin_lod_index settings in
  clamp (tile_resolution_min settings * 2 ^ relative_lod_index)
    (tile_resolution_min settings) (tile_resolution_max settings).

(** ** DetailTextureData *)

Record Tile : Type := mkTile { tile_x : Z; tile_y : Z; tile_z : Z; axis : Z }.

Record DetailTextureData : Type := mkDetailTextureData {
  normals : list Z;
  tiles : list Tile;
  tile_indices : list Z
}.

(** [DetailTextureData::clear]: the two [clear()] calls of the body. *)
Definition clear (d : DetailTextureData) : DetailTextureData :=
  mkDetailTextureData [] [] (tile_indices d).

(** ** Cell iteration *)

Definition MAX_TRIANGLES : Z := 5.

Record CurrentCellInfo : Type := mkCurrentCellInfo {
  triangle_begin_indices : list Z;
  triangle_count : Z;
  position : Vector3i
}.

(** [ICellIterator]: the three pure virtual methods, over the state [S] of an
    implementation.  [next] receives the caller's [info] and returns it as
    the call leaves it. *)
Class ICellIterator (S : Type) : Type := {
  get_count : S -> Z;
  next : S -> CurrentCellInfo -> bool * CurrentCellInfo * S;
  rewind : S -> S
}.

(** A full iteration: [while (it.next(info)) { ... }], recording [info] after
    every call that returned true.  [None] when [fuel] calls did not reach
    the end. *)
Fixpoint iterate {S : Type} `{ICellIterator S} (fuel : nat) (s : S)
    (info : CurrentCellInfo) : option (list CurrentCellInfo * S) :=
  match fuel with
  | O => None
  | Datatypes.S fuel' =>
      let '(more, info', s') := next s info in
      if more then
        match iterate fuel' s' info' with
        | Some (cells, s'') => Some (info' :: cells, s'')
        | None => None
        end
      else Some ([], s')
  end.

(** Modelled from the spec: no implementation of [ICellIterator] is in the
    header, so its contract is the spec's.  An implementation traverses a
    fixed sequence of cells with a cursor: [get_count] is the exact length of
    the sequence, [rewind] puts the cursor on the first cell, [next] yields
    the cell under the cursor and advances, and returns false once the
    cursor is past the last cell. *)
Record iterator_contract {S : Type} `{ICellIterator S}
    (cells_of : S -> list CurrentCellInfo) (cursor : S -> nat) : Prop :=
  mkIteratorContract {
    ic_count : forall s, get_count s = Z.of_nat (length (cells_of s));
    ic_rewind_cells : forall s, cells_of (rewind s) = cells_of s;
    ic_rewind_cursor : forall s, cursor (rewind s) = O;
    ic_next_more : forall s info c,
      nth_error (cells_of s) (cursor s) = Some c ->
      let '(more, info', s') := next s info in
      more = true /\ info' = c /\
      cells_of s' = cells_of s /\ cursor s' = Datatypes.S (cursor s);
    ic_next_done : forall s info,
      nth_error (cells_of s) (cursor s) = None ->
      let '(more, _, s') := next s info in
      more = false /\ cells_of s' = cells_of s
  }.

(** A reference implementation, not part of the header, on which the
    contract is exercised: the cells of a vector, visited by index. *)
Record VectorCellIterator : Type := mkVectorCellIterator {
  vec_cells : list CurrentCellInfo;
  vec_index : nat
}.

#[export] Instance VectorCellIterator_iterator : ICellIterator VectorCellIterator := {
  get_count s := Z.of_nat (length (vec_cells s));
  next s info :=
    match nth_error (vec_cells s) (vec_index s) with
    | Some c => (true, c, mkVectorCellIterator (vec_cells s) (Datatypes.S (vec_index s)))
    | None => (false, info, s)
    end;
  rewind s := mkVectorCellIterator (vec_cells s) O
}.

(** ** The detail sampler *)

(** [Vector3f]: three [float] components. *)
Record Vector3f : Type := mkVector3f {
  fx : spec_float; fy : spec_float; fz : spec_float
}.

Definition to_uint8 (z : Z) : Z := z mod 256.

(** A default-constructed [CurrentCellInfo]. *)
Definition empty_cell_info : CurrentCellInfo :=
  mkCurrentCellInfo (repeat 0 (Z.to_nat MAX_TRIANGLES)) 0 (mkVector3i 0 0 0).

Section DetailSampler.

Context {S : Type} `{ICellIterator S}.

(** The collaborators of the sampler, which the header leaves to other
    files: the projection axis of a cell (step 1), the clamped normal of a
    pixel of its tile (steps 2 to 5), the two encodings (step 6) and the
    edit mask (step 7). *)
Variable choose_projection_axis : CurrentCellInfo -> Z.
Variable pixel_normal : CurrentCellInfo -> Z -> nat -> nat -> Vector3f.
Variable encode_normal_raw : Vector3f -> Z * Z * Z.
Variable encode_normal_octahedral : Vector3f -> Z * Z.
Variable cell_has_edits : CurrentCellInfo -> bool.

Definition encode_pixel (octahedral_encoding : bool) (n : Vector3f) : list Z :=
  if octahedral_encoding then
    let '(u, v) := encode_normal_octahedral n in [u; v]
  else
    let '(r, g, b) := encode_normal_raw n in [r; g; b].

(** The [tile_resolution x tile_resolution] pixels of one tile, row by row. *)
Definition render_tile (tile_resolution : Z) (octahedral_encoding : bool)
    (cell : CurrentCellInfo) (tile_axis : Z) : list Z :=
  flat_map
    (fun py =>
       flat_map
         (fun px => encode_pixel octahedral_encoding (pixel_normal cell tile_axis px py))
         (seq 0 (Z.to_nat tile_resolution)))
    (seq 0 (Z.to_nat tile_resolution)).

Definition tile_of_cell (cell : CurrentCellInfo) (tile_axis : Z) : Tile :=
  mkTile (to_uint8 (vx (position cell))) (to_uint8 (vy (position cell)))
    (to_uint8 (vz (position cell))) tile_axis.

(** One cell: skipped when only edited tiles are wanted and it has no
    edit; otherwise its tile and pixels are appended, and with them, in the
    edited-only mode, the index of the cell. *)
Definition sample_cell (tile_resolution : Z)
    (octahedral_encoding edited_tiles_only : bool)
    (cell_index : Z) (cell : CurrentCellInfo) (d : DetailTextureData)
    : DetailTextureData :=
  if edited_tiles_only && negb (cell_has_edits cell) then d
  else
    let tile_axis := choose_projection_axis cell in
    mkDetailTextureData
      (normals d ++ render_tile tile_resolution octahedral_encoding cell tile_axis)
      (tiles d ++ [tile_of_cell cell tile_axis])
      (if edited_tiles_only then tile_indices d ++ [cell_index]
       else tile_indices d).

Fixpoint sample_cells (tile_resolution : Z)
    (octahedral_encoding edited_tiles_only : bool)
    (cell_index : Z) (cells : list CurrentCellInfo) (d : DetailTextureData)
    : DetailTextureData :=
  match cells with
  | [] => d
  | cell :: rest =>
      sample_cells tile_resolution octahedral_encoding edited_tiles_only
        (cell_index + 1) rest
        (sample_cell tile_resolution octahedral_encoding edited_tiles_only
           cell_index cell d)
  end.

(** Modelled from the spec: the body of [compute_detail_texture_data]
    (detail_rendering.cpp) is missing; the header only declares it.  The
    spec has it visit the cells the iterator yields, in order, and produce
    for each retained cell one tile and its block of
    [tile_resolution * tile_resolution] encoded pixels, 3 bytes each or 2
    with the octahedral encoding.  Step 7 of the spec is read with the
    invariant of its data model: in the edited-only mode one index is
    recorded per retained tile, and none otherwise. *)
Definition compute_detail_texture_data (fuel : nat) (cell_iterator : S)
    (tile_resolution : Z) (octahedral_encoding edited_tiles_only : bool)
    : option DetailTextureData :=
  match iterate fuel cell_iterator empty_cell_info with
  | Some (cells, _) =>
      Some (sample_cells tile_resolution octahedral_encoding edited_tiles_only
              0 cells (mkDetailTextureData [] [] []))
  | None => None
  end.

End DetailSampler.

Definition bytes_per_pixel (octahedral_encoding : bool) : Z :=
  if octahedral_encoding then 2 else 3.

(** ** DetailTextureOutput *)

(** [Ref<T>]: null, or a handle of the resource. *)
Definition Ref : Type := option Z.

Record DetailImages : Type := mkDetailImages {
  images_atlas : Ref; images_lookup : Ref
}.

Record DetailTextures : Type := mkDetailTextures {
  textures_atlas : Ref; textures_lookup : Ref
}.

Record DetailTextureOutput : Type := mkDetailTextureOutput {
  images : DetailImages;
  textures : DetailTextures;
  valid : bool
}.

(** The object as its member initialisers leave it: null references and
    [valid = { false }].  The header has no code that writes the fields;
    [valid] is a public [std::atomic_bool]. *)
Definition new_output : DetailTextureOutput :=
  mkDetailTextureOutput (mkDetailImages None None) (mkDetailTextures None None) false.

(** ** get_square_grid_size_from_item_count *)

(** [double] is IEEE 754 binary64. *)
Definition prec : Z := 53.
Definition emax : Z := 1024.

(** [double(item_count)]. *)
Definition double_of_uint (n : Z) : spec_float := binary_normalize prec emax n 0 false.

(** [Math::sqrt]: the correctly rounded square root. *)
Definition Math_sqrt (v : spec_float) : spec_float := SFsqrt prec emax v.

(** The least integer not below [m * 2^e]. *)
Definition ceil_scaled (m e : Z) : Z :=
  if 0 <=? e then m * 2 ^ e else - ((- m) / 2 ^ (- e)).

(** [Math::ceil]: a finite value with a non-negative exponent is an integer
    already; otherwise the ceiling is below [2^53] and is converted exactly. *)
Definition Math_ceil (v : spec_float) : spec_float :=
  match v with
  | S754_finite s m e =>
      if 0 <=? e then v
      else binary_normalize prec emax (ceil_scaled (cond_Zopp s (Zpos m)) e) 0 s
  | _ => v
  end.

(** [int(v)]: truncation towards zero; [None] where the conversion is
    undefined (NaN, infinities, values outside [int]). *)
Definition double_to_int (v : spec_float) : option Z :=
  match v with
  | S754_zero _ => Some 0
  | S754_finite s m e =>
      let magnitude := if 0 <=? e then Zpos m * 2 ^ e else Zpos m / 2 ^ (- e) in
      let t := cond_Zopp s magnitude in
      if (Int.INT_MIN <=? t) && (t <=? Int.INT_MAX) then Some t else None
  | _ => None
  end.

Definition get_square_grid_size_from_item_count (item_count : Z) : option Z :=
  option_map Int.to_unsigned
    (double_to_int (Math_ceil (Math_sqrt (double_of_uint item_count)))).

(** Address [a] lies in the [j]-th row the loop writes, the rows starting at
    [dp] and being [dst_row_size] apart. *)
Definition row_holds (src_row_size dst_row_size dp j a : Z) : Prop :=
  dp + j * dst_row_size <= a < dp + j * dst_row_size + src_row_size.

(** ** Calls the properties are exercised on *)

(** The representative call: a 2x2 block of 3-byte pixels, stored at address
    100, copied into a 4x4 destination stored at address 0, at position
    (1, 1). *)
Definition sample_args : copy_args :=
  mkCopyArgs (mkSpan 0 48) (mkVector2i 4 4) (mkSpan 100 12) (mkVector2i 2 2)
    (mkVector2i 1 1) 3.

(** Every byte holds the low bits of its address. *)
Definition sample_memory : memory := fun addr => addr mod 256.

(** A destination row of 65537 pixels of 65536 bytes each is 2^32 + 65536
    bytes long; the source is one such pixel, copied to the last position. *)
Definition wide_args : copy_args :=
  mkCopyArgs (mkSpan 0 (2 ^ 32 + 65536)) (mkVector2i 65537 1)
    (mkSpan (2 ^ 33) 65536) (mkVector2i 1 1) (mkVector2i 65536 0) 65536.

(** Zeroes below address 2^33 (the destination), ones from there on (the
    source). *)
Definition wide_memory : memory := fun addr => if addr <? 2 ^ 33 then 0 else 1.

(** The same dimensions with a destination span of the length the 32-bit
    assertion computes, and the source placed at position (1, 0). *)
Definition wrapped_args : copy_args :=
  mkCopyArgs (mkSpan 0 65536) (mkVector2i 65537 1)
    (mkSpan (2 ^ 33) 65536) (mkVector2i 1 1) (mkVector2i 1 0) 65536.

(** Three cells, and the iterator over them. *)
Definition sample_cells_list : list CurrentCellInfo :=
  [ mkCurrentCellInfo [0; 3; 0; 0; 0] 2 (mkVector3i 0 0 0);
    mkCurrentCellInfo [6; 0; 0; 0; 0] 1 (mkVector3i 1 0 0);
    mkCurrentCellInfo [9; 12; 15; 0; 0] 3 (mkVector3i 1 2 0) ].

Definition sample_iterator : VectorCellIterator :=
  mkVectorCellIterator sample_cells_list 0.

(** What the sampler keeps true of the data it builds. *)
Definition well_formed_data (tile_resolution : Z)
    (octahedral_encoding edited_tiles_only : bool) (d : DetailTextureData) : Prop :=
  Z.of_nat (length (normals d))
  = Z.of_nat (length (tiles d)) * tile_resolution * tile_resolution
    * bytes_per_pixel octahedral_encoding
  /\ (if edited_tiles_only then length (tile_indices d) = length (tiles d)
      else tile_indices d = []).

(** Collaborators for a run: the axis is +Z, every normal is (0, 0, 1), the
    raw encoding is (128, 128, 255), the octahedral one (128, 128), and the
    cells with more than one triangle are the edited ones. *)
Definition sample_normal : Vector3f :=
  mkVector3f (S754_zero false) (S754_zero false) (S754_finite false 4503599627370496 (-52)).

Definition sample_run (octahedral_encoding edited_tiles_only : bool)
    : option DetailTextureData :=
  compute_detail_texture_data (fun _ => 2) (fun _ _ _ _ => sample_normal)
    (fun _ => (128, 128, 255)) (fun _ => (128, 128))
    (fun c => 1 <? triangle_count c)
    4 sample_iterator 4 octahedral_encoding edited_tiles_only.

Definition sample_run_result : DetailTextureData :=
  mkDetailTextureData
    (concat (repeat [128; 128] 32))
    [mkTile 0 0 0 2; mkTile 1 2 0 2] [0; 2].

(** The exponent [SFsqrt] gives the root of a 53-digit mantissa with an
    exponent [e] in [[-52, 0]]. *)
Definition sqrt_exponent (e : Z) : Z := (54 + e) / 2 - 53.

(** ** Further vocabulary for the copy *)


(** Address [addr] is a byte of the destination span. *)
Definition in_destination (a : copy_args) (addr : Z) : Prop :=
  data (dst a) <= addr < data (dst a) + size (dst a).

(** The [memcpy]s of a call, read off its arguments: row [j] of the source
    goes to the row [dst_pos.y + j] of the destination, from the column
    [dst_pos.x] on. *)
Definition row_copies (a : copy_args) : list access :=
  map
    (fun j : nat =>
       mkAccess
         (data (dst a)
          + byte_offset (x (dst_size a)) (item_size_in_bytes a)
              (x (dst_pos a)) (y (dst_pos a) + Z.of_nat j) 0)
         (data (src a)
          + byte_offset (x (src_size a)) (item_size_in_bytes a) 0 (Z.of_nat j) 0)
         (x (src_size a) * item_size_in_bytes a))
    (seq 0 (Z.to_nat (y (src_size a)))).

Definition copied_bytes (log : list access) : Z :=
  fold_right Z.add 0 (map acc_len log).

(** The target rectangles of two calls have no pixel in common. *)
Definition rectangles_apart (a b : copy_args) : Prop :=
  x (dst_pos a) + x (src_size a) <= x (dst_pos b)
  \/ x (dst_pos b) + x (src_size b) <= x (dst_pos a)
  \/ y (dst_pos a) + y (src_size a) <= y (dst_pos b)
  \/ y (dst_pos b) + y (src_size b) <= y (dst_pos a).

(** Two calls fill the same atlas: same destination span, dimensions and
    item size. *)
Definition same_destination (a b : copy_args) : Prop :=
  dst a = dst b /\ dst_size a = dst_size b
  /\ item_size_in_bytes a = item_size_in_bytes b.

(** A second block for the 4x4 destination of [sample_args]: 1x2 pixels
    stored at address 200, placed at (3, 2). *)
Definition second_args : copy_args :=
  mkCopyArgs (mkSpan 0 48) (mkVector2i 4 4) (mkSpan 200 6) (mkVector2i 1 2)
    (mkVector2i 3 2) 3.

(** A call with no row to copy. *)
Definition empty_args : copy_args :=
  mkCopyArgs (mkSpan 0 48) (mkVector2i 4 4) (mkSpan 100 0) (mkVector2i 2 0)
    (mkVector2i 1 1) 3.


(** * Properties *)

(** ** Machine integers *)

Module IntFacts.
Import Int.

Lemma to_unsigned_small z : 0 <= z < uint_modulus -> to_unsigned z = z.
Proof. intros H. unfold to_unsigned. now apply Z.mod_small. Qed.


Lemma to_unsigned_to_int z : to_unsigned (to_int z) = to_unsigned z.
Proof.
  unfold to_unsigned, to_int, uint_modulus.
  rewrite Zminus_mod, Zmod_mod, <- Zminus_mod. f_equal. lia.
Qed.

Lemma to_unsigned_range z : 0 <= to_unsigned z < uint_modulus.
Proof. unfold to_unsigned, uint_modulus. apply Z.mod_pos_bound. lia. Qed.

Lemma to_unsigned_le z : 0 <= z -> to_unsigned z <= z.
Proof.
  intros H. unfold to_unsigned, uint_modulus. apply Z.mod_le; lia.
Qed.

Lemma uint_mul_to_unsigned_l a b :
  uint_mul (to_unsigned a) b = to_unsigned (a * b).
Proof.
  unfold uint_mul, to_unsigned. now rewrite Zmult_mod_idemp_l.
Qed.

Lemma uint_mul_small a b : 0 <= a * b <= UINT_MAX -> uint_mul a b = a * b.
Proof.
  intros H. unfold uint_mul. apply to_unsigned_small.
  unfold UINT_MAX in H. lia.
Qed.

Lemma to_unsigned_add_to_int a z :
  to_unsigned (a + to_int z) = to_unsigned (a + z).
Proof.
  unfold to_unsigned. rewrite Zplus_mod.
  change (to_int z mod uint_modulus) with (to_unsigned (to_int z)).
  rewrite to_unsigned_to_int. unfold to_unsigned. now rewrite <- Zplus_mod.
Qed.

Lemma to_unsigned_int_add_mul a b c :
  to_unsigned (int_add a (int_mul b c)) = to_unsigned (a + b * c).
Proof.
  unfold int_add, int_mul.
  now rewrite to_unsigned_to_int, to_unsigned_add_to_int.
Qed.

End IntFacts.

(** ** The copy loop *)

Section CopyRows.

Variables src_row_size dst_row_size : Z.

Local Abbreviation rows_from r m log dp sp :=
  (copy_rows r m log dp sp src_row_size dst_row_size).

Local Abbreviation in_row dp j a := (row_holds src_row_size dst_row_size dp j a).

Lemma memcpy_outside m dp sp n a :
  ~ (dp <= a < dp + n) -> memcpy m dp sp n a = m a.
Proof.
  intros H. unfold memcpy.
  destruct (dp <=? a) eqn:E1; destruct (a <? dp + n) eqn:E2; simpl; auto.
  exfalso. apply H. lia.
Qed.

Lemma memcpy_inside m dp sp n a :
  dp <= a < dp + n -> memcpy m dp sp n a = m (sp + (a - dp)).
Proof.
  intros H. unfold memcpy.
  destruct (dp <=? a) eqn:E1; destruct (a <? dp + n) eqn:E2; simpl; auto; lia.
Qed.

(** The log does not influence the memory. *)
Lemma copy_rows_frame r : forall m log dp sp a,
  (forall j, 0 <= j < Z.of_nat r -> ~ in_row dp j a) ->
  fst (rows_from r m log dp sp) a = m a.
Proof.
  induction r as [|r IH]; intros m log dp sp a H; simpl; [reflexivity|].
  rewrite IH.
  - apply memcpy_outside. specialize (H 0). unfold row_holds in H.
    intros C. apply H; lia.
  - intros j Hj C. apply (H (j + 1)); [lia|].
    unfold row_holds in *. lia.
Qed.

Lemma copy_rows_copied r : forall m log dp sp j k,
  0 <= src_row_size <= dst_row_size ->
  0 <= j < Z.of_nat r ->
  0 <= k < src_row_size ->
  (forall i a, 0 <= i < Z.of_nat r -> in_row dp i a ->
     ~ (sp <= a < sp + Z.of_nat r * src_row_size)) ->
  fst (rows_from r m log dp sp) (dp + j * dst_row_size + k)
  = m (sp + j * src_row_size + k).
Proof.
  induction r as [|r IH]; intros m log dp sp j k Hn Hj Hk Hdis; [lia|].
  simpl copy_rows.
  destruct (Z.eq_dec j 0) as [->|Hj0].
  - rewrite copy_rows_frame.
    + rewrite memcpy_inside by lia. f_equal. lia.
    + intros i Hi. unfold row_holds. nia.
  - replace (dp + j * dst_row_size + k)
      with (dp + dst_row_size + (j - 1) * dst_row_size + k) by lia.
    rewrite IH; try lia.
    + rewrite memcpy_outside.
      * f_equal. lia.
      * intros C.
        apply (Hdis 0 (sp + src_row_size + (j - 1) * src_row_size + k)).
        -- lia.
        -- unfold row_holds. lia.
        -- nia.
    + intros i a Hi Hrow C.
      apply (Hdis (i + 1) a).
      * lia.
      * unfold row_holds in *. lia.
      * nia.
Qed.


End CopyRows.

(** ** The copy under its preconditions, when offsets fit [unsigned int] *)

Section CopyInRange.

Variable a : copy_args.
Hypothesis Hwt : well_typed a.
Hypothesis Hpre : precondition a.
Hypothesis Hfit : fits_unsigned a.

Local Abbreviation sx := (x (src_size a)).
Local Abbreviation sy := (y (src_size a)).
Local Abbreviation dx := (x (dst_size a)).
Local Abbreviation dy := (y (dst_size a)).
Local Abbreviation px := (x (dst_pos a)).
Local Abbreviation py := (y (dst_pos a)).
Local Abbreviation item := (item_size_in_bytes a).

Lemma item_nonneg : 0 <= item.
Proof. destruct Hwt. unfold Int.is_uint in *. lia. Qed.

(** Row [i] of the target rectangle ends inside the destination, counted
    in pixels. *)
Lemma row_pixels_inside i :
  0 <= i < sy -> px + (py + i) * dx + sx <= dx * dy.
Proof.
  destruct Hpre as [[? ?] [? ?] [? ?] Hx Hy _ _ _]. intros Hi.
  assert ((py + i) * dx <= (dy - 1) * dx) by (apply Z.mul_le_mono_nonneg_r; lia).
  lia.
Qed.

Lemma src_pixels_le : sx * sy <= dx * dy.
Proof.
  destruct Hpre as [[? ?] [? ?] [? ?] Hx Hy _ _ _].
  apply Z.mul_le_mono_nonneg; lia.
Qed.

Lemma scaled_fits p : 0 <= p <= dx * dy -> 0 <= p * item <= Int.UINT_MAX.
Proof.
  intros Hp. pose proof item_nonneg. unfold fits_unsigned in Hfit.
  split; [apply Z.mul_nonneg_nonneg; lia|].
  transitivity (dx * dy * item); [|assumption].
  apply Z.mul_le_mono_nonneg_r; lia.
Qed.

Lemma dx_le_pixels : 0 < sy -> dx <= dx * dy.
Proof.
  destruct Hpre as [[? ?] [? ?] [? ?] Hx Hy _ _ _]. intros. nia.
Qed.

Lemma src_row_size_exact : 0 < sy -> src_row_size_of a = sx * item.
Proof.
  intros Hrows. unfold src_row_size_of.
  destruct Hpre as [[? ?] [? ?] [? ?] Hx Hy _ _ _].
  rewrite IntFacts.uint_mul_to_unsigned_l.
  apply IntFacts.to_unsigned_small.
  assert (0 <= sx * item <= Int.UINT_MAX).
  { apply scaled_fits. pose proof src_pixels_le. nia. }
  unfold Int.UINT_MAX in *. lia.
Qed.

Lemma dst_row_size_exact : 0 < sy -> dst_row_size_of a = dx * item.
Proof.
  intros Hrows. unfold dst_row_size_of.
  destruct Hpre as [[? ?] [? ?] [? ?] Hx Hy _ _ _].
  rewrite IntFacts.uint_mul_to_unsigned_l.
  apply IntFacts.to_unsigned_small.
  assert (0 <= dx * item <= Int.UINT_MAX).
  { apply scaled_fits. pose proof (dx_le_pixels Hrows). lia. }
  unfold Int.UINT_MAX in *. lia.
Qed.

Lemma dst_begin_exact : 0 < sy -> dst_begin_of a = (px + py * dx) * item.
Proof.
  intros Hrows. unfold dst_begin_of.
  destruct Hpre as [[? ?] [? ?] [? ?] Hx Hy _ _ _].
  rewrite IntFacts.to_unsigned_int_add_mul, IntFacts.uint_mul_to_unsigned_l.
  apply IntFacts.to_unsigned_small.
  assert (0 <= (px + py * dx) * item <= Int.UINT_MAX).
  { apply scaled_fits. pose proof (row_pixels_inside 0). nia. }
  unfold Int.UINT_MAX, Int.uint_modulus in *. lia.
Qed.

Lemma row_count_exact : Z.of_nat (Z.to_nat (Int.to_unsigned sy)) = sy.
Proof.
  destruct Hpre as [[? ?] _ _ _ _ _ _ _]. destruct Hwt.
  unfold Int.is_int, Int.INT_MIN, Int.INT_MAX in *.
  rewrite IntFacts.to_unsigned_small by (unfold Int.uint_modulus; lia).
  lia.
Qed.

Lemma run_exact m :
  0 < sy ->
  copy_2d_region_run m a
  = copy_rows (Z.to_nat (Int.to_unsigned sy)) m []
      (data (dst a) + (px + py * dx) * item) (data (src a))
      (sx * item) (dx * item).
Proof.
  intros Hrows. unfold copy_2d_region_run.
  now rewrite dst_begin_exact, src_row_size_exact, dst_row_size_exact.
Qed.

Lemma row_sizes_ordered : 0 <= sx * item <= dx * item.
Proof.
  destruct Hpre as [[? ?] [? ?] [? ?] Hx Hy _ _ _]. pose proof item_nonneg.
  split; [apply Z.mul_nonneg_nonneg; lia|].
  apply Z.mul_le_mono_nonneg_r; lia.
Qed.

(** Every written row lies inside the destination span. *)
Lemma row_inside_dst i addr :
  0 <= i < sy ->
  row_holds (sx * item) (dx * item) (data (dst a) + (px + py * dx) * item) i addr ->
  data (dst a) <= addr < data (dst a) + size (dst a).
Proof.
  intros Hi [Hlo Hhi]. pose proof item_nonneg as Hitem.
  pose proof (row_pixels_inside i Hi) as Hrow.
  destruct Hpre as [[? ?] [? ?] [? ?] Hx Hy _ Hlen _].
  rewrite Hlen.
  assert (0 <= (px + (py + i) * dx) * item).
  { apply Z.mul_nonneg_nonneg; [|lia].
    assert (0 <= (py + i) * dx) by (apply Z.mul_nonneg_nonneg; lia). lia. }
  assert ((px + (py + i) * dx + sx) * item <= dx * dy * item)
    by (apply Z.mul_le_mono_nonneg_r; lia).
  lia.
Qed.

(** No written row meets the source span. *)
Lemma rows_miss_src i addr :
  0 <= i < sy ->
  row_holds (sx * item) (dx * item) (data (dst a) + (px + py * dx) * item) i addr ->
  ~ (data (src a) <= addr < data (src a) + sy * (sx * item)).
Proof.
  intros Hi Hrow C. pose proof (row_inside_dst i addr Hi Hrow) as Hd.
  destruct Hpre as [_ _ _ _ _ Hs _ Hov].
  unfold overlaps in Hov. apply andb_false_iff in Hov.
  rewrite !Z.ltb_ge in Hov.
  replace (sy * (sx * item)) with (size (src a)) in C by (rewrite Hs; ring).
  lia.
Qed.

End CopyInRange.

(** ** copy_2d_region_from_packed_to_atlased: what is copied, and where *)

Lemma sample_args_well_typed : well_typed sample_args.
Proof. constructor; cbv; intuition discriminate. Qed.

Lemma sample_args_precondition : precondition sample_args.
Proof. constructor; cbv; intuition discriminate. Qed.

Lemma sample_args_fit : fits_unsigned sample_args.
Proof. cbv. discriminate. Qed.

Lemma wide_args_well_typed : well_typed wide_args.
Proof. constructor; cbv; intuition discriminate. Qed.

Lemma wide_args_precondition : precondition wide_args.
Proof. constructor; cbv; intuition discriminate. Qed.

(** C1 (as amended). Under the documented preconditions, and when the
    destination's byte length fits [unsigned int], the byte [b] of every
    source pixel [(X, Y)] is found after the call at the byte offset
    [((dst_pos.y + Y) * dst_size.x + dst_pos.x + X) * item_size_in_bytes + b]
    of the destination. *)
Theorem copy_writes_every_source_byte (m : memory) (a : copy_args) :
  well_typed a -> precondition a -> fits_unsigned a ->
  forall X Y b,
    0 <= X < x (src_size a) -> 0 <= Y < y (src_size a) ->
    0 <= b < item_size_in_bytes a ->
    span_get (copy_2d_region_from_packed_to_atlased m a) (dst a)
      (byte_offset (x (dst_size a)) (item_size_in_bytes a)
         (x (dst_pos a) + X) (y (dst_pos a) + Y) b)
    = span_get m (src a)
        (byte_offset (x (src_size a)) (item_size_in_bytes a) X Y b).
Proof.
  intros Hwt Hpre Hfit X Y b HX HY Hb.
  unfold copy_2d_region_from_packed_to_atlased, span_get, byte_offset.
  rewrite (run_exact a Hwt Hpre Hfit) by lia.
  set (sx := x (src_size a)) in *. set (sy := y (src_size a)) in *.
  set (dx := x (dst_size a)) in *. set (px := x (dst_pos a)) in *.
  set (py := y (dst_pos a)) in *. set (item := item_size_in_bytes a) in *.
  replace (data (dst a) + (((py + Y) * dx + (px + X)) * item + b))
    with (data (dst a) + (px + py * dx) * item + Y * (dx * item) + (X * item + b))
    by ring.
  replace (data (src a) + ((Y * sx + X) * item + b))
    with (data (src a) + Y * (sx * item) + (X * item + b)) by ring.
  pose proof (row_count_exact a Hwt Hpre) as Hrows. fold sy in Hrows.
  apply copy_rows_copied.
  - apply (row_sizes_ordered a Hwt Hpre).
  - lia.
  - assert (X * item + item <= sx * item) by nia. nia.
  - intros i addr Hi Hrow. rewrite Hrows in *.
    apply (rows_miss_src a Hwt Hpre i addr); [lia|exact Hrow].
Qed.

Lemma copy_writes_every_source_byte_witness :
  span_get (copy_2d_region_from_packed_to_atlased sample_memory sample_args)
    (dst sample_args) (byte_offset 4 3 (1 + 1) (1 + 1) 2)
  = span_get sample_memory (src sample_args) (byte_offset 2 3 1 1 2).
Proof.
  apply (copy_writes_every_source_byte sample_memory sample_args
           sample_args_well_typed sample_args_precondition sample_args_fit
           1 1 2); simpl; lia.
Defined.

(** C1 as stated fails once the destination is longer than [unsigned int]
    holds: the preconditions hold for [wide_args], [dst_begin] wraps to 0, and
    the source byte does not arrive at the offset of pixel (65536, 0). *)
Lemma copy_misplaces_source_byte_when_offsets_wrap :
  well_typed wide_args /\ precondition wide_args /\
  0 <= 0 < x (src_size wide_args) /\ 0 <= 0 < y (src_size wide_args) /\
  0 <= 0 < item_size_in_bytes wide_args /\
  span_get (copy_2d_region_from_packed_to_atlased wide_memory wide_args)
    (dst wide_args)
    (byte_offset (x (dst_size wide_args)) (item_size_in_bytes wide_args)
       (x (dst_pos wide_args) + 0) (y (dst_pos wide_args) + 0) 0)
  <> span_get wide_memory (src wide_args)
       (byte_offset (x (src_size wide_args)) (item_size_in_bytes wide_args) 0 0 0).
Proof.
  split; [exact wide_args_well_typed|].
  split; [exact wide_args_precondition|].
  repeat split; try (cbv; congruence).
Qed.

(** A byte of pixel [P] lies in the byte range of the pixels [Q .. Q + n)
    only if [P] is one of them. *)
Lemma pixel_of_byte item P Q n b :
  0 <= b < item ->
  Q * item <= P * item + b < Q * item + n * item ->
  Q <= P < Q + n.
Proof. intros Hb [H1 H2]. split; nia. Qed.

(** A pixel index of a [width]-wide grid determines its row and column. *)
Lemma pixel_row_unique width X Y c r n :
  0 <= X < width -> 0 <= c -> c + n <= width ->
  c + r * width <= Y * width + X < c + r * width + n ->
  Y = r /\ c <= X < c + n.
Proof.
  intros HX Hc Hn [H1 H2].
  assert (Y = r) by nia. subst. lia.
Qed.

(** C2 (as amended). Under the documented preconditions, and when the
    destination's byte length fits [unsigned int], every byte of a destination
    pixel outside the rectangle
    [[dst_pos.x, dst_pos.x + src_size.x) x [dst_pos.y, dst_pos.y + src_size.y)]
    is the same after the call as before. *)
Theorem copy_leaves_outside_untouched (m : memory) (a : copy_args) :
  well_typed a -> precondition a -> fits_unsigned a ->
  forall X Y b,
    0 <= X < x (dst_size a) -> 0 <= Y < y (dst_size a) ->
    0 <= b < item_size_in_bytes a ->
    ~ (x (dst_pos a) <= X < x (dst_pos a) + x (src_size a) /\
       y (dst_pos a) <= Y < y (dst_pos a) + y (src_size a)) ->
    span_get (copy_2d_region_from_packed_to_atlased m a) (dst a)
      (byte_offset (x (dst_size a)) (item_size_in_bytes a) X Y b)
    = span_get m (dst a)
        (byte_offset (x (dst_size a)) (item_size_in_bytes a) X Y b).
Proof.
  intros Hwt Hpre Hfit X Y b HX HY Hb Hout.
  unfold copy_2d_region_from_packed_to_atlased, span_get, byte_offset.
  pose proof (row_count_exact a Hwt Hpre) as Hrows.
  destruct (Z.eq_dec (y (src_size a)) 0) as [E0|Hne].
  - unfold copy_2d_region_run. rewrite E0. reflexivity.
  - assert (Hpos : 0 < y (src_size a)) by (destruct Hpre as [[? ?] _ _ _ _ _ _ _]; lia).
    rewrite (run_exact a Hwt Hpre Hfit) by exact Hpos.
    apply copy_rows_frame. intros j Hj [Hlo Hhi]. rewrite Hrows in Hj.
    apply Hout.
    destruct Hpre as [[? ?] [? ?] [? ?] Hx Hy _ _ _].
    set (sx := x (src_size a)) in *. set (dx := x (dst_size a)) in *.
    set (px := x (dst_pos a)) in *. set (py := y (dst_pos a)) in *.
    set (item := item_size_in_bytes a) in *.
    assert (Hpix : px + (py + j) * dx <= Y * dx + X < px + (py + j) * dx + sx).
    { apply (pixel_of_byte item _ _ _ b Hb). split; lia. }
    destruct (pixel_row_unique dx X Y px (py + j) sx HX) as [-> ?]; lia.
Qed.

Lemma copy_leaves_outside_untouched_witness :
  span_get (copy_2d_region_from_packed_to_atlased sample_memory sample_args)
    (dst sample_args) (byte_offset 4 3 3 1 0)
  = span_get sample_memory (dst sample_args) (byte_offset 4 3 3 1 0).
Proof.
  apply (copy_leaves_outside_untouched sample_memory sample_args
           sample_args_well_typed sample_args_precondition sample_args_fit
           3 1 0); simpl; lia.
Defined.

(** C2 as stated fails once the destination is longer than [unsigned int]
    holds: for [wide_args] the block meant for pixel (65536, 0) lands on
    pixel (0, 0), which is outside the target rectangle. *)
Lemma copy_overwrites_outside_when_offsets_wrap :
  well_typed wide_args /\ precondition wide_args /\
  0 <= 0 < x (dst_size wide_args) /\ 0 <= 0 < y (dst_size wide_args) /\
  0 <= 0 < item_size_in_bytes wide_args /\
  ~ (x (dst_pos wide_args) <= 0 < x (dst_pos wide_args) + x (src_size wide_args) /\
     y (dst_pos wide_args) <= 0 < y (dst_pos wide_args) + y (src_size wide_args)) /\
  span_get (copy_2d_region_from_packed_to_atlased wide_memory wide_args)
    (dst wide_args)
    (byte_offset (x (dst_size wide_args)) (item_size_in_bytes wide_args) 0 0 0)
  <> span_get wide_memory (dst wide_args)
       (byte_offset (x (dst_size wide_args)) (item_size_in_bytes wide_args) 0 0 0).
Proof.
  split; [exact wide_args_well_typed|].
  split; [exact wide_args_precondition|].
  repeat split; try (cbv; congruence).
  cbv. intros [[H _] _]. apply H. reflexivity.
Qed.

Lemma access_in_boundsb_spec a c :
  access_in_boundsb a c = true <-> access_in_bounds a c.
Proof.
  unfold access_in_boundsb, access_in_bounds.
  rewrite !andb_true_iff, !Z.leb_le. tauto.
Qed.

Section CopyAsserts.

Variable a : copy_args.
Hypothesis Hwt : well_typed a.
Hypothesis Hpre : precondition a.
Hypothesis Hfit : fits_unsigned a.




End CopyAsserts.







(** The converse failure: for [wrapped_args] the 32-bit products make every
    assertion pass, and the single [memcpy] writes 65536 bytes past the end of
    the 65536-byte destination. *)
Lemma copy_assertions_accept_wrapped_length :
  well_typed wrapped_args /\
  debug_asserts wrapped_args = true /\
  copy_2d_region_accesses wide_memory wrapped_args
  = [mkAccess 65536 (2 ^ 33) 65536] /\
  forallb (access_in_boundsb wrapped_args)
    (copy_2d_region_accesses wide_memory wrapped_args) = false.
Proof.
  split; [constructor; cbv; intuition discriminate|].
  repeat split; reflexivity.
Qed.

(** ** Tile resolution per LOD *)

Lemma clamp_above v lo hi : lo <= v -> lo <= hi -> clamp v lo hi = Z.min v hi.
Proof.
  intros H1 H2. unfold clamp.
  destruct (v <? lo) eqn:E1; [apply Z.ltb_lt in E1; lia|].
  destruct (hi <? v) eqn:E2; [apply Z.ltb_lt in E2|apply Z.ltb_ge in E2]; lia.
Qed.

Lemma clamp_bounds v lo hi : lo <= hi -> lo <= clamp v lo hi <= hi.
Proof.
  intros H. unfold clamp.
  destruct (v <? lo) eqn:E1; [lia|apply Z.ltb_ge in E1].
  destruct (hi <? v) eqn:E2; [|apply Z.ltb_ge in E2]; lia.
Qed.

Lemma resolution_unfold s lod :
  valid_settings s -> begin_lod_index s <= lod ->
  get_detail_texture_tile_resolution_for_lod s lod
  = Z.min (tile_resolution_min s * 2 ^ (lod - begin_lod_index s))
      (tile_resolution_max s).
Proof.
  intros [_ [Hmin _] _ Hle _] Hlod.
  unfold get_detail_texture_tile_resolution_for_lod.
  apply clamp_above; [|assumption].
  assert (0 < 2 ^ (lod - begin_lod_index s)) by (apply Z.pow_pos_nonneg; lia).
  nia.
Qed.

(** C5. For valid settings and a LOD index from [begin_lod_index] on, the tile
    resolution is [tile_resolution_min] at [begin_lod_index], each further
    LOD index doubles it up to the cap [tile_resolution_max], it always lies
    in [[tile_resolution_min, tile_resolution_max]], and it never decreases
    as the LOD index moves away from [begin_lod_index]. *)
Theorem tile_resolution_for_lod_doubles_clamped
    (s : DetailRenderingSettings) (lod : Z) :
  valid_settings s -> begin_lod_index s <= lod ->
  get_detail_texture_tile_resolution_for_lod s (begin_lod_index s)
  = tile_resolution_min s
  /\ get_detail_texture_tile_resolution_for_lod s (lod + 1)
     = Z.min (2 * get_detail_texture_tile_resolution_for_lod s lod)
         (tile_resolution_max s)
  /\ tile_resolution_min s
     <= get_detail_texture_tile_resolution_for_lod s lod
     <= tile_resolution_max s
  /\ (forall lod', lod <= lod' ->
        get_detail_texture_tile_resolution_for_lod s lod
        <= get_detail_texture_tile_resolution_for_lod s lod').
Proof.
  intros Hs Hlod.
  pose proof Hs as [_ [Hmin _] [_ _] Hle _].
  repeat split.
  - rewrite resolution_unfold by (assumption || lia).
    rewrite Z.sub_diag, Z.pow_0_r. lia.
  - rewrite !resolution_unfold by (assumption || lia).
    replace (lod + 1 - begin_lod_index s) with (Z.succ (lod - begin_lod_index s)) by lia.
    rewrite Z.pow_succ_r by lia. lia.
  - apply clamp_bounds; assumption.
  - apply clamp_bounds; assumption.
  - intros lod' Hlod'. rewrite !resolution_unfold by (assumption || lia).
    assert (2 ^ (lod - begin_lod_index s) <= 2 ^ (lod' - begin_lod_index s))
      by (apply Z.pow_le_mono_r; lia).
    nia.
Qed.

Lemma default_settings_valid : valid_settings default_settings.
Proof. constructor; cbv; intuition discriminate. Qed.

Lemma tile_resolution_for_lod_doubles_clamped_witness :
  get_detail_texture_tile_resolution_for_lod default_settings 2 = 4
  /\ get_detail_texture_tile_resolution_for_lod default_settings (3 + 1)
     = Z.min (2 * get_detail_texture_tile_resolution_for_lod default_settings 3) 8
  /\ 4 <= get_detail_texture_tile_resolution_for_lod default_settings 3 <= 8
  /\ (forall lod', 3 <= lod' ->
        get_detail_texture_tile_resolution_for_lod default_settings 3
        <= get_detail_texture_tile_resolution_for_lod default_settings lod').
Proof.
  apply (tile_resolution_for_lod_doubles_clamped default_settings 3).
  - exact default_settings_valid.
  - simpl. lia.
Defined.

(** ** DetailTextureData::clear *)

(** C10. [clear()] empties [normals] and [tiles] and leaves [tile_indices] as
    it was. *)
Theorem clear_keeps_tile_indices (d : DetailTextureData) :
  normals (clear d) = [] /\ tiles (clear d) = []
  /\ tile_indices (clear d) = tile_indices d.
Proof. repeat split. Qed.

(** A populated index remap is still there after [clear()]. *)
Example clear_keeps_tile_indices_populated :
  clear (mkDetailTextureData [1; 2; 3] [mkTile 0 0 0 2] [7])
  = mkDetailTextureData [] [] [7].
Proof. reflexivity. Qed.

(** ** Cell iterators *)

Section CellIterators.

Context {S : Type} `{ICellIterator S}.
Variable cells_of : S -> list CurrentCellInfo.
Variable cursor : S -> nat.
Hypothesis contract : iterator_contract cells_of cursor.

Lemma skipn_cons_nth_error {A : Type} (l : list A) n c :
  nth_error l n = Some c -> skipn n l = c :: skipn (Datatypes.S n) l.
Proof.
  revert n. induction l as [|h t IH]; intros [|n] E; simpl in *; try discriminate.
  - now injection E as ->.
  - now apply IH.
Qed.

(** A full iteration yields the cells from the cursor on, in order, and
    succeeds as soon as the fuel exceeds their number. *)
Lemma iterate_from_cursor fuel : forall s info,
  (length (cells_of s) - cursor s < fuel)%nat ->
  exists s',
    iterate fuel s info = Some (skipn (cursor s) (cells_of s), s')
    /\ cells_of s' = cells_of s.
Proof.
  induction fuel as [|fuel IH]; intros s info Hfuel; [lia|].
  simpl iterate.
  destruct (nth_error (cells_of s) (cursor s)) as [c|] eqn:E.
  - pose proof (ic_next_more _ _ contract s info c E) as Hn.
    destruct (next s info) as [[more info'] s1].
    destruct Hn as (-> & -> & Hcells & Hcur).
    assert (Hlt : (cursor s < length (cells_of s))%nat)
      by (apply nth_error_Some; congruence).
    destruct (IH s1 c) as (s' & Hit & Hc'); [rewrite Hcells, Hcur; lia|].
    exists s'. rewrite Hit, Hcells, Hcur.
    split; [|congruence].
    now rewrite (skipn_cons_nth_error _ _ _ E).
  - pose proof (ic_next_done _ _ contract s info E) as Hn.
    destruct (next s info) as [[more info'] s1].
    destruct Hn as (-> & Hcells).
    exists s1. split; [|assumption].
    apply nth_error_None in E. now rewrite skipn_all2.
Qed.

Lemma iterate_after_rewind fuel s info :
  (length (cells_of s) < fuel)%nat ->
  exists s',
    iterate fuel (rewind s) info = Some (cells_of s, s')
    /\ cells_of s' = cells_of s.
Proof.
  intros Hfuel.
  destruct (iterate_from_cursor fuel (rewind s) info) as (s' & Hit & Hc).
  - rewrite (ic_rewind_cells _ _ contract), (ic_rewind_cursor _ _ contract). lia.
  - rewrite (ic_rewind_cells _ _ contract), (ic_rewind_cursor _ _ contract) in *.
    exists s'. now split.
Qed.

End CellIterators.

(** C8. For an iterator that keeps the contract and stands on its first
    cell, a full iteration ends, the number of [next()] calls that returned
    true is [get_count()], and after [rewind()] a second full iteration
    yields the same sequence of [CurrentCellInfo] values. *)
Theorem iterator_count_exact_and_rewind_replays
    {S : Type} `{ICellIterator S}
    (cells_of : S -> list CurrentCellInfo) (cursor : S -> nat)
    (s : S) (info info' : CurrentCellInfo) (fuel : nat) :
  iterator_contract cells_of cursor ->
  cursor s = O ->
  get_count s < Z.of_nat fuel ->
  exists first_pass s1 s2,
    iterate fuel s info = Some (first_pass, s1)
    /\ get_count s = Z.of_nat (length first_pass)
    /\ iterate fuel (rewind s1) info' = Some (first_pass, s2).
Proof.
  intros Hc Hstart Hfuel.
  rewrite (ic_count _ _ Hc) in Hfuel.
  destruct (iterate_from_cursor cells_of cursor Hc fuel s info) as (s1 & H1 & Hs1);
    [lia|].
  rewrite Hstart in H1. simpl in H1.
  destruct (iterate_after_rewind cells_of cursor Hc fuel s1 info') as (s2 & H2 & _);
    [rewrite Hs1; lia|].
  exists (cells_of s), s1, s2. rewrite Hs1 in H2.
  repeat split; [assumption | apply (ic_count _ _ Hc) | assumption].
Qed.

Lemma VectorCellIterator_contract : iterator_contract vec_cells vec_index.
Proof.
  constructor; simpl; try reflexivity.
  - intros s info c E. rewrite E. repeat split.
  - intros s info E. rewrite E. repeat split.
Qed.

Lemma iterator_count_exact_and_rewind_replays_witness :
  exists first_pass s1 s2,
    iterate 4 sample_iterator empty_cell_info = Some (first_pass, s1)
    /\ get_count sample_iterator = Z.of_nat (length first_pass)
    /\ iterate 4 (rewind s1) empty_cell_info = Some (first_pass, s2).
Proof.
  apply (iterator_count_exact_and_rewind_replays vec_cells vec_index
           sample_iterator empty_cell_info empty_cell_info 4
           VectorCellIterator_contract).
  - reflexivity.
  - simpl. lia.
Defined.

(** ** The detail sampler *)

Section DetailSamplerFacts.

Variable choose_projection_axis : CurrentCellInfo -> Z.
Variable pixel_normal : CurrentCellInfo -> Z -> nat -> nat -> Vector3f.
Variable encode_normal_raw : Vector3f -> Z * Z * Z.
Variable encode_normal_octahedral : Vector3f -> Z * Z.
Variable cell_has_edits : CurrentCellInfo -> bool.

Variable tile_resolution : Z.
Variables octahedral_encoding edited_tiles_only : bool.
Hypothesis resolution_nonneg : 0 <= tile_resolution.

Lemma encode_pixel_length n :
  Z.of_nat (length (encode_pixel encode_normal_raw encode_normal_octahedral
                      octahedral_encoding n))
  = bytes_per_pixel octahedral_encoding.
Proof.
  unfold encode_pixel, bytes_per_pixel. destruct octahedral_encoding.
  - now destruct (encode_normal_octahedral n).
  - now destruct (encode_normal_raw n) as [[? ?] ?].
Qed.

Lemma render_tile_length cell tile_axis :
  Z.of_nat (length (render_tile pixel_normal encode_normal_raw
                      encode_normal_octahedral tile_resolution
                      octahedral_encoding cell tile_axis))
  = tile_resolution * tile_resolution * bytes_per_pixel octahedral_encoding.
Proof.
  unfold render_tile.
  rewrite flat_map_constant_length
    with (c := (Z.to_nat tile_resolution
                * Z.to_nat (bytes_per_pixel octahedral_encoding))%nat).
  - rewrite length_seq, !Nat2Z.inj_mul, !Z2Nat.id; try lia.
    unfold bytes_per_pixel. destruct octahedral_encoding; lia.
  - intros py _.
    rewrite flat_map_constant_length
      with (c := Z.to_nat (bytes_per_pixel octahedral_encoding)).
    + now rewrite length_seq.
    + intros px _. rewrite <- encode_pixel_length with (n := pixel_normal cell tile_axis px py).
      now rewrite Nat2Z.id.
Qed.

Local Abbreviation well_formed :=
  (well_formed_data tile_resolution octahedral_encoding edited_tiles_only).

Lemma sample_cell_well_formed cell_index cell d :
  well_formed d ->
  well_formed
    (sample_cell choose_projection_axis pixel_normal encode_normal_raw
       encode_normal_octahedral cell_has_edits tile_resolution
       octahedral_encoding edited_tiles_only cell_index cell d).
Proof.
  intros [Hn Hi]. unfold sample_cell.
  destruct (edited_tiles_only && negb (cell_has_edits cell)); [now split|].
  split; simpl.
  - rewrite !length_app, !Nat2Z.inj_add, render_tile_length, Hn. simpl. ring.
  - destruct edited_tiles_only; [|assumption].
    rewrite !length_app, Hi. reflexivity.
Qed.

Lemma sample_cells_well_formed cells : forall cell_index d,
  well_formed d ->
  well_formed
    (sample_cells choose_projection_axis pixel_normal encode_normal_raw
       encode_normal_octahedral cell_has_edits tile_resolution
       octahedral_encoding edited_tiles_only cell_index cells d).
Proof.
  induction cells as [|cell rest IH]; intros cell_index d Hd; simpl;
    [assumption|].
  apply IH. now apply sample_cell_well_formed.
Qed.

Lemma empty_data_well_formed : well_formed (mkDetailTextureData [] [] []).
Proof. split; simpl; [reflexivity|now destruct edited_tiles_only]. Qed.

End DetailSamplerFacts.

(** C6. Whatever the collaborators compute, the data the sampler produces has
    [normals.size() == tiles.size() * tile_resolution * tile_resolution *
    bytes_per_pixel], with 3 bytes per pixel, or 2 with the octahedral
    encoding, and a non-empty [tile_indices] has as many entries as
    [tiles]. *)
Theorem sampler_output_sizes {S : Type} `{ICellIterator S}
    (choose_projection_axis : CurrentCellInfo -> Z)
    (pixel_normal : CurrentCellInfo -> Z -> nat -> nat -> Vector3f)
    (encode_normal_raw : Vector3f -> Z * Z * Z)
    (encode_normal_octahedral : Vector3f -> Z * Z)
    (cell_has_edits : CurrentCellInfo -> bool)
    (fuel : nat) (cell_iterator : S) (tile_resolution : Z)
    (octahedral_encoding edited_tiles_only : bool) (d : DetailTextureData) :
  0 <= tile_resolution ->
  compute_detail_texture_data choose_projection_axis pixel_normal
    encode_normal_raw encode_normal_octahedral cell_has_edits
    fuel cell_iterator tile_resolution octahedral_encoding edited_tiles_only
  = Some d ->
  Z.of_nat (length (normals d))
  = Z.of_nat (length (tiles d)) * tile_resolution * tile_resolution
    * (if octahedral_encoding then 2 else 3)
  /\ (tile_indices d <> [] -> length (tile_indices d) = length (tiles d)).
Proof.
  intros Hres Hrun. unfold compute_detail_texture_data in Hrun.
  destruct (iterate fuel cell_iterator empty_cell_info) as [[cells s']|];
    [|discriminate].
  injection Hrun as <-.
  destruct (sample_cells_well_formed choose_projection_axis pixel_normal
              encode_normal_raw encode_normal_octahedral cell_has_edits
              tile_resolution octahedral_encoding edited_tiles_only Hres
              cells 0 (mkDetailTextureData [] [] [])
              (empty_data_well_formed tile_resolution octahedral_encoding
                 edited_tiles_only)) as [Hn Hi].
  split; [exact Hn|].
  intros Hne. destruct edited_tiles_only; [exact Hi|contradiction].
Qed.

(** The sampler returns once the fuel exceeds the iterator's count. *)
Lemma sampler_returns {S : Type} `{ICellIterator S}
    (cells_of : S -> list CurrentCellInfo) (cursor : S -> nat)
    (choose_projection_axis : CurrentCellInfo -> Z)
    (pixel_normal : CurrentCellInfo -> Z -> nat -> nat -> Vector3f)
    (encode_normal_raw : Vector3f -> Z * Z * Z)
    (encode_normal_octahedral : Vector3f -> Z * Z)
    (cell_has_edits : CurrentCellInfo -> bool)
    (fuel : nat) (cell_iterator : S) (tile_resolution : Z)
    (octahedral_encoding edited_tiles_only : bool) :
  iterator_contract cells_of cursor ->
  get_count cell_iterator < Z.of_nat fuel ->
  exists d,
    compute_detail_texture_data choose_projection_axis pixel_normal
      encode_normal_raw encode_normal_octahedral cell_has_edits
      fuel cell_iterator tile_resolution octahedral_encoding edited_tiles_only
    = Some d.
Proof.
  intros Hc Hfuel. rewrite (ic_count _ _ Hc) in Hfuel.
  destruct (iterate_from_cursor cells_of cursor Hc fuel cell_iterator
              empty_cell_info) as (s' & Hit & _); [lia|].
  unfold compute_detail_texture_data. rewrite Hit. eauto.
Qed.

Example sample_run_computes : sample_run true true = Some sample_run_result.
Proof. reflexivity. Qed.

Lemma sampler_output_sizes_witness :
  Z.of_nat (length (normals sample_run_result))
  = Z.of_nat (length (tiles sample_run_result)) * 4 * 4 * 2
  /\ (tile_indices sample_run_result <> [] ->
      length (tile_indices sample_run_result) = length (tiles sample_run_result)).
Proof.
  apply (sampler_output_sizes (fun _ => 2) (fun _ _ _ _ => sample_normal)
           (fun _ => (128, 128, 255)) (fun _ => (128, 128))
           (fun c => 1 <? triangle_count c)
           4%nat sample_iterator 4 true true sample_run_result).
  - lia.
  - reflexivity.
Defined.

(** ** binary64 arithmetic on integers *)

Section Binary64.

Local Abbreviation fexp64 := (fexp prec emax).

Lemma digits2_pos_size p : digits2_pos p = Pos.size p.
Proof. induction p; simpl; congruence. Qed.

(** The number of binary digits is fixed by the two powers of 2 around the
    number. *)
Lemma digits2_unique p k :
  0 < k -> 2 ^ (k - 1) <= Zpos p < 2 ^ k -> Zpos (digits2_pos p) = k.
Proof.
  intros Hk [Hlo Hhi]. rewrite digits2_pos_size.
  pose proof (Pos.size_gt p) as Hgt. pose proof (Pos.size_le p) as Hle.
  apply Pos2Z.pos_lt_pos in Hgt. apply Pos2Z.pos_le_pos in Hle.
  rewrite Pos2Z.inj_pow in Hgt, Hle. change (Z.pos p~0) with (2 * Z.pos p) in Hle.
  set (d := Z.pos (Pos.size p)) in *.
  assert (0 < d) by (unfold d; lia).
  destruct (Z.lt_trichotomy d k) as [Hlt|[Heq|Hgt']]; [exfalso| assumption |exfalso].
  - assert (2 ^ d <= 2 ^ (k - 1)) by (apply Z.pow_le_mono_r; lia). lia.
  - assert (2 ^ k <= 2 ^ (d - 1)) by (apply Z.pow_le_mono_r; lia).
    replace d with (Z.succ (d - 1)) in Hle by lia.
    rewrite Z.pow_succ_r in Hle by lia. lia.
Qed.

Lemma digits2_bounds p :
  2 ^ (Zpos (digits2_pos p) - 1) <= Zpos p < 2 ^ Zpos (digits2_pos p).
Proof.
  rewrite digits2_pos_size.
  pose proof (Pos.size_gt p) as Hgt. pose proof (Pos.size_le p) as Hle.
  apply Pos2Z.pos_lt_pos in Hgt. apply Pos2Z.pos_le_pos in Hle.
  rewrite Pos2Z.inj_pow in Hgt, Hle. change (Z.pos p~0) with (2 * Z.pos p) in Hle.
  split; [|assumption].
  replace (Z.pos (Pos.size p)) with (Z.succ (Z.pos (Pos.size p) - 1)) in Hle by lia.
  rewrite Z.pow_succ_r in Hle by lia. lia.
Qed.

Lemma iter_xO_pow p k : Zpos (Pos.iter xO p k) = Zpos p * 2 ^ Zpos k.
Proof.
  induction k as [|k IH] using Pos.peano_ind.
  - simpl. lia.
  - rewrite Pos.iter_succ, Pos2Z.inj_succ, Z.pow_succ_r by lia.
    change (Z.pos (Pos.iter xO p k)~0) with (2 * Z.pos (Pos.iter xO p k)).
    rewrite IH. ring.
Qed.

Lemma fexp64_normal e : -1021 <= e -> fexp64 e = e - 53.
Proof. intros H. unfold fexp, emin, prec, emax. lia. Qed.

Lemma loc_of_shr_record_of_loc m l :
  loc_of_shr_record (shr_record_of_loc m l) = l.
Proof. now destruct l as [|[| |]]. Qed.

Lemma shr_m_of_loc m l : shr_m (shr_record_of_loc m l) = m.
Proof. now destruct l as [|[| |]]. Qed.

(** A 53-digit mantissa with an exponent in range is not shifted. *)
Lemma shr_fexp_canonical p e l :
  Zpos (digits2_pos p) = 53 -> -1074 <= e ->
  shr_fexp prec emax (Zpos p) e l = (shr_record_of_loc (Zpos p) l, e).
Proof.
  intros Hd He. unfold shr_fexp. simpl Zdigits2. rewrite Hd.
  rewrite fexp64_normal by lia.
  replace (53 + e - 53 - e) with 0 by lia. reflexivity.
Qed.

Lemma round_nearest_even_pos q l :
  exists r, round_nearest_even (Zpos q) l = Zpos r /\ (r = q \/ r = Pos.succ q).
Proof.
  destruct l as [|[| |]]; simpl; eauto.
  - destruct q; simpl; eauto.
    all: eexists; split; [reflexivity|right]; simpl; try reflexivity.
    all: now rewrite ?Pos.add_1_r.
  - exists (q + 1)%positive. split; [reflexivity|right]. now rewrite Pos.add_1_r.
Qed.

(** Rounding a 53-digit mantissa to nearest: the result keeps the exponent,
    unless the mantissa is carried to [2^53], which is renormalised. *)
Lemma binary_round_aux_53 s q e l :
  Zpos (digits2_pos q) = 53 -> -1074 <= e <= 970 ->
  exists m' e',
    binary_round_aux prec emax s (Zpos q) e l = S754_finite s m' e'
    /\ ((e' = e /\ Zpos m' = round_nearest_even (Zpos q) l)
        \/ (e' = e + 1 /\ 2 * Zpos m' = round_nearest_even (Zpos q) l)).
Proof.
  intros Hd He. unfold binary_round_aux.
  rewrite shr_fexp_canonical by (assumption || lia).
  rewrite shr_m_of_loc, loc_of_shr_record_of_loc.
  destruct (round_nearest_even_pos q l) as (r & -> & Hr).
  pose proof (digits2_bounds q) as Hq. rewrite Hd in Hq.
  assert (Hrq : Zpos q <= Zpos r <= Zpos q + 1) by (destruct Hr; subst; lia).
  destruct (Z.eq_dec (Zpos r) (2 ^ 53)) as [E|NE].
  - assert (r = 9007199254740992%positive) as -> by (apply Pos2Z.inj; exact E).
    exists 4503599627370496%positive, (e + 1).
    split; [|right; split; reflexivity].
    unfold shr_fexp. simpl Zdigits2. simpl digits2_pos.
    rewrite fexp64_normal by lia.
    replace (54 + e - 53 - e) with 1 by lia.
    simpl. destruct (Z.leb_spec (e + 1) 971); [reflexivity|lia].
  - assert (Hdr : Zpos (digits2_pos r) = 53).
    { apply digits2_unique; [lia|]. simpl Z.sub in *. lia. }
    rewrite shr_fexp_canonical by (assumption || lia).
    simpl. destruct (Z.leb_spec e 971); [|lia].
    exists r, e. split; [reflexivity|left; split; reflexivity].
Qed.

Lemma binary_round_aux_exact s p e :
  Zpos (digits2_pos p) = 53 -> -1074 <= e <= 971 ->
  binary_round_aux prec emax s (Zpos p) e loc_Exact = S754_finite s p e.
Proof.
  intros Hd He. unfold binary_round_aux.
  rewrite shr_fexp_canonical by (assumption || lia).
  simpl shr_m. simpl round_nearest_even.
  rewrite shr_fexp_canonical by (assumption || lia).
  simpl. destruct (Z.leb_spec e 971); [reflexivity|lia].
Qed.

(** [double(n)] for a positive integer below [2^53]: the integer shifted to
    53 digits, exactly. *)
Lemma double_of_uint_pos p :
  Zpos p < 2 ^ 53 ->
  let d := Zpos (digits2_pos p) in
  exists m,
    double_of_uint (Zpos p) = S754_finite false m (d - 53)
    /\ Zpos m = Zpos p * 2 ^ (53 - d)
    /\ Zpos (digits2_pos m) = 53.
Proof.
  intros Hp d. pose proof (digits2_bounds p) as Hb. fold d in Hb.
  assert (Hd : 0 < d <= 53).
  { split; [unfold d; lia|].
    destruct (Z_le_gt_dec d 53) as [|Hgt]; [assumption|exfalso].
    assert (2 ^ 53 <= 2 ^ (d - 1)) by (apply Z.pow_le_mono_r; lia). lia. }
  unfold double_of_uint, binary_normalize, binary_round.
  fold d. rewrite fexp64_normal by lia.
  unfold shl_align. rewrite Z.add_0_r, Z.sub_0_r.
  destruct (d - 53) as [|k|k] eqn:Ek; try lia.
  - (* already 53 digits *)
    assert (d = 53) by lia.
    exists p. replace (53 - d) with 0 by lia.
    split; [|split; [simpl; lia|lia]].
    apply binary_round_aux_exact; lia.
  - (* shifted left by [53 - d] digits *)
    assert (Hk : 53 - d = Zpos k) by lia.
    exists (Pos.iter xO p k).
    assert (Hm : Zpos (Pos.iter xO p k) = Zpos p * 2 ^ (53 - d))
      by (rewrite Hk; apply iter_xO_pow).
    assert (Hdm : Zpos (digits2_pos (Pos.iter xO p k)) = 53).
    { apply digits2_unique; [lia|]. rewrite Hm.
      replace (2 ^ (53 - 1)) with (2 ^ (d - 1) * 2 ^ (53 - d))
        by (rewrite <- Z.pow_add_r by lia; f_equal; lia).
      replace (2 ^ 53) with (2 ^ d * 2 ^ (53 - d))
        by (rewrite <- Z.pow_add_r by lia; f_equal; lia).
      assert (0 < 2 ^ (53 - d)) by (apply Z.pow_pos_nonneg; lia).
      nia. }
    split; [|split; assumption].
    replace (Z.neg k) with (d - 53) by lia.
    apply binary_round_aux_exact; [assumption|lia].
Qed.

Lemma sqrt_exponent_shift e :
  -52 <= e <= 0 -> 52 <= e - 2 * sqrt_exponent e <= 53.
Proof. unfold sqrt_exponent. intros H. Z.div_mod_to_equations. lia. Qed.

(** [Math::sqrt] of such a value: the integer square root [q] of the scaled
    radicand, or [q + 1], at the exponent [sqrt_exponent e] (a carry to
    [2^53] renormalised); [q] itself when the radicand is a square. *)
Lemma Math_sqrt_53 m e :
  Zpos (digits2_pos m) = 53 -> -52 <= e <= 0 ->
  let radicand := Zpos m * 2 ^ (e - 2 * sqrt_exponent e) in
  let q := Z.sqrt radicand in
  exists m' e' r,
    Math_sqrt (S754_finite false m e) = S754_finite false m' e'
    /\ ((e' = sqrt_exponent e /\ Zpos m' = r)
        \/ (e' = sqrt_exponent e + 1 /\ 2 * Zpos m' = r))
    /\ q <= r <= q + 1
    /\ (radicand = q * q -> r = q).
Proof.
  intros Hd He radicand q.
  pose proof (sqrt_exponent_shift e He) as Hs.
  pose proof (digits2_bounds m) as Hm. rewrite Hd in Hm. simpl Z.sub in Hm.
  unfold Math_sqrt, SFsqrt, SFsqrt_core_binary.
  simpl Zdigits2. rewrite Hd.
  assert (He' : Z.min (fexp64 (Z.div2 (53 + e + 1))) (Z.div2 e) = sqrt_exponent e).
  { rewrite !Z.div2_div, fexp64_normal by (Z.div_mod_to_equations; lia).
    unfold sqrt_exponent. Z.div_mod_to_equations. lia. }
  rewrite He'.
  set (s := e - 2 * sqrt_exponent e) in *.
  assert (Hrad : 2 ^ 104 <= radicand < 2 ^ 106).
  { unfold radicand.
    assert (2 ^ 52 <= 2 ^ s) by (apply Z.pow_le_mono_r; lia).
    assert (2 ^ s <= 2 ^ 53) by (apply Z.pow_le_mono_r; lia).
    change (2 ^ 104) with (2 ^ 52 * 2 ^ 52).
    change (2 ^ 106) with (2 ^ 53 * 2 ^ 53). nia. }
  assert (Hsh : match s with
                | Z.pos _ => Z.shiftl (Zpos m) s
                | 0 => Zpos m
                | Z.neg _ => 0
                end = radicand).
  { destruct s eqn:Es; try lia. rewrite Z.shiftl_mul_pow2 by lia. reflexivity. }
  rewrite Hsh.
  pose proof (Z.sqrtrem_spec radicand ltac:(lia)) as Hspec.
  pose proof (Z.sqrtrem_sqrt radicand) as Hfst. fold q in Hfst.
  destruct (Z.sqrtrem radicand) as [q0 rem]. simpl in Hfst. subst q0.
  destruct Hspec as [Hsq Hrem].
  assert (Hq : 2 ^ 52 <= q < 2 ^ 53).
  { change (2 ^ 104) with (2 ^ 52 * 2 ^ 52) in Hrad.
    change (2 ^ 106) with (2 ^ 53 * 2 ^ 53) in Hrad.
    assert (0 <= q) by (apply Z.sqrt_nonneg). nia. }
  destruct q as [|q'|q'] eqn:Eq; try (simpl in Hq; lia).
  assert (Hdq : Zpos (digits2_pos q') = 53)
    by (apply digits2_unique; [lia|simpl Z.sub; lia]).
  set (l := if rem =? 0 then loc_Exact
            else loc_Inexact (if rem <=? Zpos q' then Lt else Gt)).
  destruct (binary_round_aux_53 false q' (sqrt_exponent e) l Hdq)
    as (m' & e' & Hr & Hcase).
  { unfold sqrt_exponent. Z.div_mod_to_equations. lia. }
  exists m', e', (round_nearest_even (Zpos q') l).
  split; [exact Hr|]. split; [exact Hcase|].
  split.
  - destruct (round_nearest_even_pos q' l) as (r & -> & [->| ->]); lia.
  - intros Hexact. assert (rem = 0) by lia. subst rem. reflexivity.
Qed.

(** [int(double(c))] gives [c] back. *)
Lemma double_to_int_of_uint p :
  Zpos p <= Int.INT_MAX ->
  double_to_int (double_of_uint (Zpos p)) = Some (Zpos p).
Proof.
  intros Hp. unfold Int.INT_MAX in Hp.
  destruct (double_of_uint_pos p) as (m & -> & Hm & _); [lia|].
  pose proof (digits2_bounds p) as Hb.
  set (d := Zpos (digits2_pos p)) in *.
  assert (Hd : 0 < d <= 31).
  { split; [unfold d; lia|].
    destruct (Z_le_gt_dec d 31) as [|Hgt]; [assumption|exfalso].
    assert (2 ^ 31 <= 2 ^ (d - 1)) by (apply Z.pow_le_mono_r; lia). lia. }
  unfold double_to_int.
  destruct (Z.leb_spec 0 (d - 53)) as [|_]; [lia|].
  replace (- (d - 53)) with (53 - d) by lia.
  rewrite Hm, Z.div_mul by (apply Z.pow_nonzero; lia).
  simpl cond_Zopp. unfold Int.INT_MIN, Int.INT_MAX.
  destruct (Z.leb_spec (- 2 ^ 31) (Zpos p)); [|lia].
  destruct (Z.leb_spec (Zpos p) (2 ^ 31 - 1)); [reflexivity|lia].
Qed.

(** The ceiling of [r / K]. *)
Lemma ceil_between t K r :
  0 < K -> (t - 1) * K < r <= t * K -> - ((- r) / K) = t.
Proof.
  intros HK Hr.
  assert ((- r) / K = - t); [|lia].
  symmetry. apply (Z.div_unique (- r) K (- t) (t * K - r)); lia.
Qed.

(** The square root of [n * K^2], rounded as [Math_sqrt_53] has it, lies
    in [((t - 1) * K, t * K]] for the least [t] with [n <= t^2], as soon as
    [K] exceeds [2 * t]. *)
Lemma rounded_root_between n K t r :
  0 < n -> 0 < t -> 2 * t <= K ->
  (t - 1) * (t - 1) < n <= t * t ->
  let q := Z.sqrt (n * K * K) in
  q <= r <= q + 1 -> (n * K * K = q * q -> r = q) ->
  (t - 1) * K < r <= t * K.
Proof.
  intros Hn Ht HK Hsq q Hr Hexact.
  assert (Hrad : 0 <= n * K * K) by nia.
  pose proof (Z.sqrt_spec (n * K * K) Hrad) as Hq. fold q in Hq.
  unfold Z.succ in Hq.
  assert (Hq0 : 0 <= q) by apply Z.sqrt_nonneg.
  assert (Hlow : (t - 1) * K + 1 <= q).
  { assert (((t - 1) * K + 1) * ((t - 1) * K + 1) <= n * K * K).
    { assert ((t - 1) * (t - 1) * (K * K) + K * K <= n * (K * K)) by nia.
      assert (2 * ((t - 1) * K) + 1 <= K * K) by nia.
      nia. }
    assert (0 <= (t - 1) * K) by nia.
    destruct (Z_le_gt_dec ((t - 1) * K + 1) q) as [|Hgt]; [assumption|exfalso].
    assert ((q + 1) * (q + 1) <= ((t - 1) * K + 1) * ((t - 1) * K + 1))
      by (apply Z.mul_le_mono_nonneg; lia).
    lia. }
  assert (Hhigh : q <= t * K).
  { assert (n * K * K <= (t * K) * (t * K)) by nia.
    assert (0 <= t * K) by nia.
    destruct (Z_le_gt_dec q (t * K)) as [|Hgt]; [assumption|exfalso].
    assert ((t * K + 1) * (t * K + 1) <= q * q)
      by (apply Z.mul_le_mono_nonneg; lia).
    lia. }
  split; [lia|].
  destruct (Z.eq_dec q (t * K)) as [E|NE]; [|lia].
  rewrite Hexact; [lia|].
  assert (q * q <= n * K * K) by lia.
  assert (n * K * K <= (t * K) * (t * K)) by nia.
  rewrite E in *. lia.
Qed.

End Binary64.

(** ** get_square_grid_size_from_item_count *)

Lemma sqrt_up_least n :
  0 <= n ->
  0 <= Z.sqrt_up n /\ n <= Z.sqrt_up n * Z.sqrt_up n
  /\ (forall k, 0 <= k -> n <= k * k -> Z.sqrt_up n <= k).
Proof.
  intros Hn. split; [apply Z.sqrt_up_nonneg|].
  destruct (Z.eq_dec n 0) as [->|Hne].
  - split; [reflexivity|]. intros k Hk _. exact Hk.
  - pose proof (Z.sqrt_up_spec n ltac:(lia)) as [Hlo Hhi].
    split; [exact Hhi|].
    intros k Hk Hsq. unfold Z.pred in Hlo.
    destruct (Z_le_gt_dec (Z.sqrt_up n) k) as [|Hgt]; [assumption|exfalso].
    assert (0 <= Z.sqrt_up n) by apply Z.sqrt_up_nonneg.
    assert (k * k <= (Z.sqrt_up n + -1) * (Z.sqrt_up n + -1))
      by (apply Z.mul_le_mono_nonneg; lia).
    lia.
Qed.

Lemma grid_size_of_positive p :
  Zpos p < 2 ^ 32 ->
  get_square_grid_size_from_item_count (Zpos p) = Some (Z.sqrt_up (Zpos p)).
Proof.
  intros Hp. set (n := Zpos p) in *. set (t := Z.sqrt_up n).
  (* the ceiling of the exact root *)
  pose proof (Z.sqrt_up_spec n ltac:(unfold n; lia)) as Ht.
  unfold Z.pred in Ht. fold t in Ht.
  assert (Ht0 : 0 <= t) by apply Z.sqrt_up_nonneg.
  assert (Htpos : 0 < t) by (unfold n in *; nia).
  assert (Htmax : t <= 2 ^ 16).
  { destruct (Z_le_gt_dec t (2 ^ 16)) as [|Hgt]; [assumption|exfalso].
    assert (2 ^ 16 * 2 ^ 16 <= (t + -1) * (t + -1))
      by (apply Z.mul_le_mono_nonneg; lia).
    change (2 ^ 16 * 2 ^ 16) with (2 ^ 32) in *. lia. }
  (* double(n) *)
  destruct (double_of_uint_pos p) as (m & Hdouble & Hm & Hdm); [fold n; lia|].
  pose proof (digits2_bounds p) as Hb.
  set (d := Zpos (digits2_pos p)) in *. fold n in Hb, Hm, Hdouble.
  assert (Hd : 0 < d <= 32).
  { split; [unfold d; lia|].
    destruct (Z_le_gt_dec d 32) as [|Hgt]; [assumption|exfalso].
    assert (2 ^ 32 <= 2 ^ (d - 1)) by (apply Z.pow_le_mono_r; lia). lia. }
  (* its square root *)
  destruct (Math_sqrt_53 m (d - 53) Hdm) as (m' & e' & r & Hsqrt & Hcase & Hr & Hexact);
    [lia|].
  set (E := sqrt_exponent (d - 53)) in *.
  assert (HE : -52 <= E <= -37)
    by (unfold E, sqrt_exponent; Z.div_mod_to_equations; lia).
  set (K := 2 ^ (- E)).
  assert (HK : 2 ^ 37 <= K) by (apply Z.pow_le_mono_r; lia).
  assert (Hrad : Zpos m * 2 ^ (d - 53 - 2 * E) = n * K * K).
  { rewrite Hm, <- Z.mul_assoc, <- Z.pow_add_r by (unfold E, sqrt_exponent;
      Z.div_mod_to_equations; lia).
    rewrite <- Z.mul_assoc. unfold K. rewrite <- Z.pow_add_r by lia.
    do 2 f_equal. lia. }
  rewrite Hrad in Hr, Hexact.
  assert (Hbetween : (t - 1) * K < r <= t * K).
  { apply (rounded_root_between n K t r); assumption || lia. }
  (* its ceiling *)
  assert (Hceil : ceil_scaled (Zpos m') e' = t /\ e' < 0).
  { unfold ceil_scaled.
    destruct Hcase as [[-> ->]|[-> Hhalf]].
    - destruct (Z.leb_spec 0 E); [lia|]. split; [|lia].
      apply ceil_between; [unfold K in *; lia|exact Hbetween].
    - destruct (Z.leb_spec 0 (E + 1)); [lia|]. split; [|lia].
      assert (HK2 : K = 2 * 2 ^ (- (E + 1))).
      { unfold K. rewrite <- Z.pow_succ_r by lia. f_equal. lia. }
      assert (0 < 2 ^ (- (E + 1))) by (apply Z.pow_pos_nonneg; lia).
      apply ceil_between; [assumption|]. nia. }
  destruct Hceil as [Hceil He'].
  unfold get_square_grid_size_from_item_count.
  rewrite Hdouble, Hsqrt. unfold Math_ceil.
  destruct (Z.leb_spec 0 e'); [lia|].
  simpl cond_Zopp. rewrite Hceil.
  change (binary_normalize prec emax t 0 false) with (double_of_uint t).
  destruct t as [|tp|tp] eqn:Et; try lia.
  rewrite double_to_int_of_uint by (unfold Int.INT_MAX; lia).
  simpl option_map. f_equal.
  apply IntFacts.to_unsigned_small. unfold Int.uint_modulus. lia.
Qed.

(** C3. For every [unsigned int] count the function returns the least
    non-negative [n] with [n * n >= item_count]; the counts 1, 2, 3, 4, 5 give
    1, 2, 2, 2, 3 and the count 0 gives 0. *)
Theorem square_grid_size_is_least_side (item_count : Z) :
  Int.is_uint item_count ->
  exists n,
    get_square_grid_size_from_item_count item_count = Some n
    /\ 0 <= n /\ item_count <= n * n
    /\ (forall k, 0 <= k -> item_count <= k * k -> n <= k)
    /\ map get_square_grid_size_from_item_count [1; 2; 3; 4; 5; 0]
       = [Some 1; Some 2; Some 2; Some 2; Some 3; Some 0].
Proof.
  intros [Hlo Hhi]. unfold Int.UINT_MAX, Int.uint_modulus in Hhi.
  exists (Z.sqrt_up item_count).
  destruct (sqrt_up_least item_count Hlo) as (H0 & Hsq & Hleast).
  split; [|split; [exact H0|split; [exact Hsq|split; [exact Hleast|reflexivity]]]].
  destruct item_count as [|p|p]; [reflexivity| |lia].
  apply grid_size_of_positive. lia.
Qed.

Lemma square_grid_size_is_least_side_witness :
  exists n,
    get_square_grid_size_from_item_count 4294967295 = Some n
    /\ 0 <= n /\ 4294967295 <= n * n
    /\ (forall k, 0 <= k -> 4294967295 <= k * k -> n <= k)
    /\ map get_square_grid_size_from_item_count [1; 2; 3; 4; 5; 0]
       = [Some 1; Some 2; Some 2; Some 2; Some 3; Some 0].
Proof.
  apply (square_grid_size_is_least_side 4294967295).
  unfold Int.is_uint, Int.UINT_MAX, Int.uint_modulus. lia.
Defined.

(** ** More on copy_2d_region_from_packed_to_atlased *)

(** Whether an address lies in one of the first [r] rows can be decided. *)
Lemma row_cases n ds dp addr (r : nat) :
  (exists j, 0 <= j < Z.of_nat r /\ row_holds n ds dp j addr)
  \/ (forall j, 0 <= j < Z.of_nat r -> ~ row_holds n ds dp j addr).
Proof.
  induction r as [|r [(j & Hj & Hrow)|Hnone]].
  - right. intros j Hj. lia.
  - left. exists j. split; [lia|exact Hrow].
  - destruct (Z_le_dec (dp + Z.of_nat r * ds) addr) as [Hlo|Hlo];
      [destruct (Z_lt_dec addr (dp + Z.of_nat r * ds + n)) as [Hhi|Hhi]|].
    + left. exists (Z.of_nat r). split; [lia|split; assumption].
    + right. intros j Hj Hrow.
      destruct (Z.eq_dec j (Z.of_nat r)) as [->|]; [destruct Hrow; lia|].
      apply (Hnone j); [lia|exact Hrow].
    + right. intros j Hj Hrow.
      destruct (Z.eq_dec j (Z.of_nat r)) as [->|]; [destruct Hrow; lia|].
      apply (Hnone j); [lia|exact Hrow].
Qed.

Section CopyEffect.

Variable a : copy_args.
Hypothesis Hwt : well_typed a.
Hypothesis Hpre : precondition a.
Hypothesis Hfit : fits_unsigned a.

Local Abbreviation sx := (x (src_size a)).
Local Abbreviation sy := (y (src_size a)).
Local Abbreviation dx := (x (dst_size a)).
Local Abbreviation px := (x (dst_pos a)).
Local Abbreviation py := (y (dst_pos a)).
Local Abbreviation item := (item_size_in_bytes a).
Local Abbreviation first_row := (data (dst a) + (px + py * dx) * item).
Local Abbreviation written j addr :=
  (row_holds (sx * item) (dx * item) first_row j addr).

(** An address no row holds keeps its byte. *)
Lemma unwritten_kept m addr :
  (forall j, 0 <= j < sy -> ~ written j addr) ->
  copy_2d_region_from_packed_to_atlased m a addr = m addr.
Proof.
  intros Hnone. unfold copy_2d_region_from_packed_to_atlased.
  pose proof (row_count_exact a Hwt Hpre) as Hrows.
  destruct (Z.eq_dec sy 0) as [E0|Hne].
  - unfold copy_2d_region_run. rewrite E0. reflexivity.
  - assert (Hpos : 0 < sy) by (destruct Hpre as [[? ?] _ _ _ _ _ _ _]; lia).
    rewrite (run_exact a Hwt Hpre Hfit) by exact Hpos.
    apply copy_rows_frame. intros j Hj. apply Hnone. lia.
Qed.

(** The byte [k] of the row [j] comes from the byte [k] of the source
    row [j]. *)
Lemma written_from_source m j k :
  0 <= j < sy -> 0 <= k < sx * item ->
  copy_2d_region_from_packed_to_atlased m a (first_row + j * (dx * item) + k)
  = m (data (src a) + j * (sx * item) + k).
Proof.
  intros Hj Hk. unfold copy_2d_region_from_packed_to_atlased.
  pose proof (row_count_exact a Hwt Hpre) as Hrows.
  rewrite (run_exact a Hwt Hpre Hfit) by lia.
  apply copy_rows_copied.
  - apply (row_sizes_ordered a Hwt Hpre).
  - lia.
  - exact Hk.
  - intros i addr Hi Hrow. rewrite Hrows in *.
    apply (rows_miss_src a Hwt Hpre i addr); [lia|exact Hrow].
Qed.

(** The source span is not written. *)
Lemma source_kept m addr :
  data (src a) <= addr < data (src a) + size (src a) ->
  copy_2d_region_from_packed_to_atlased m a addr = m addr.
Proof.
  intros Hsrc. apply unwritten_kept. intros j Hj Hrow.
  apply (rows_miss_src a Hwt Hpre j addr Hj Hrow).
  destruct Hpre as [_ _ _ _ _ Hs _ _].
  replace (sy * (sx * item)) with (size (src a)) by (rewrite Hs; ring).
  exact Hsrc.
Qed.

(** A byte of a destination pixel outside the target rectangle is in no
    row. *)
Lemma outside_pixel_unwritten X Y b j :
  0 <= X < dx -> 0 <= b < item -> 0 <= j < sy ->
  ~ (px <= X < px + sx /\ py <= Y < py + sy) ->
  ~ written j (data (dst a) + byte_offset dx item X Y b).
Proof.
  intros HX Hb Hj Hout [Hlo Hhi]. apply Hout. unfold byte_offset in *.
  destruct Hpre as [[? ?] [? ?] [? ?] Hx Hy _ _ _].
  assert (Hpix : px + (py + j) * dx <= Y * dx + X < px + (py + j) * dx + sx).
  { apply (pixel_of_byte item _ _ _ b Hb). split; lia. }
  destruct (pixel_row_unique dx X Y px (py + j) sx HX) as [-> ?]; lia.
Qed.

End CopyEffect.

Lemma second_args_well_typed : well_typed second_args.
Proof. constructor; cbv; intuition discriminate. Qed.

Lemma second_args_precondition : precondition second_args.
Proof. constructor; cbv; intuition discriminate. Qed.

Lemma second_args_fit : fits_unsigned second_args.
Proof. cbv. discriminate. Qed.

(** X1. A call with no row, no column or a zero item size leaves the whole
    memory as it is, whatever its other arguments are. *)
Theorem copy_of_nothing_changes_nothing (m : memory) (a : copy_args) (addr : Z) :
  y (src_size a) = 0 \/ x (src_size a) = 0 \/ item_size_in_bytes a = 0 ->
  copy_2d_region_from_packed_to_atlased m a addr = m addr.
Proof.
  intros Hempty.
  unfold copy_2d_region_from_packed_to_atlased, copy_2d_region_run.
  destruct Hempty as [Hy|Hrow].
  - rewrite Hy. reflexivity.
  - assert (Hsize : src_row_size_of a = 0).
    { unfold src_row_size_of, Int.uint_mul, Int.to_unsigned.
      destruct Hrow as [-> | ->].
      - reflexivity.
      - now rewrite Z.mul_0_r. }
    rewrite Hsize. apply copy_rows_frame.
    intros j _ [Hlo Hhi]. lia.
Qed.

Lemma copy_of_nothing_changes_nothing_witness :
  copy_2d_region_from_packed_to_atlased sample_memory empty_args 15
  = sample_memory 15.
Proof.
  apply (copy_of_nothing_changes_nothing sample_memory empty_args 15).
  left. reflexivity.
Defined.

(** X2. Under the preconditions, within [unsigned int], the call writes
    nothing outside the destination span: every other address, the source
    included, keeps its byte. *)
Theorem copy_writes_only_the_destination (m : memory) (a : copy_args) (addr : Z) :
  well_typed a -> precondition a -> fits_unsigned a ->
  ~ in_destination a addr ->
  copy_2d_region_from_packed_to_atlased m a addr = m addr.
Proof.
  intros Hwt Hpre Hfit Hout.
  apply (unwritten_kept a Hwt Hpre Hfit). intros j Hj Hrow.
  apply Hout. exact (row_inside_dst a Hwt Hpre j addr Hj Hrow).
Qed.

Lemma copy_writes_only_the_destination_witness :
  copy_2d_region_from_packed_to_atlased sample_memory sample_args 103
  = sample_memory 103.
Proof.
  apply (copy_writes_only_the_destination sample_memory sample_args 103
           sample_args_well_typed sample_args_precondition sample_args_fit).
  unfold in_destination. simpl. lia.
Defined.

(** X3. Under the preconditions, within [unsigned int], a second identical
    call changes nothing: the memory after two calls is the memory after
    one, at every address. *)
Theorem copy_twice_is_copy_once (m : memory) (a : copy_args) (addr : Z) :
  well_typed a -> precondition a -> fits_unsigned a ->
  copy_2d_region_from_packed_to_atlased
    (copy_2d_region_from_packed_to_atlased m a) a addr
  = copy_2d_region_from_packed_to_atlased m a addr.
Proof.
  intros Hwt Hpre Hfit.
  pose proof (row_count_exact a Hwt Hpre) as Hrows.
  set (n := x (src_size a) * item_size_in_bytes a).
  set (ds := x (dst_size a) * item_size_in_bytes a).
  set (dp := data (dst a)
             + (x (dst_pos a) + y (dst_pos a) * x (dst_size a))
               * item_size_in_bytes a).
  destruct (row_cases n ds dp addr (Z.to_nat (Int.to_unsigned (y (src_size a)))))
    as [(j & Hj & Hlo & Hhi)|Hnone].
  - rewrite Hrows in Hj.
    replace addr with (dp + j * ds + (addr - dp - j * ds)) by lia.
    unfold dp, ds.
    rewrite !(written_from_source a Hwt Hpre Hfit) by (fold n ds dp; lia).
    apply (source_kept a Hwt Hpre Hfit).
    destruct Hpre as [[? ?] _ _ _ _ Hs _ _]. rewrite Hs. fold n.
    assert (0 <= j * n) by (apply Z.mul_nonneg_nonneg; lia).
    assert ((j + 1) * n <= y (src_size a) * n)
      by (apply Z.mul_le_mono_nonneg_r; lia).
    replace (x (src_size a) * y (src_size a) * item_size_in_bytes a)
      with (y (src_size a) * n) by (unfold n; ring).
    lia.
  - rewrite Hrows in Hnone.
    now rewrite !(unwritten_kept a Hwt Hpre Hfit) by exact Hnone.
Qed.

Lemma copy_twice_is_copy_once_witness :
  copy_2d_region_from_packed_to_atlased
    (copy_2d_region_from_packed_to_atlased sample_memory sample_args)
    sample_args 16
  = copy_2d_region_from_packed_to_atlased sample_memory sample_args 16.
Proof.
  exact (copy_twice_is_copy_once sample_memory sample_args 16
           sample_args_well_typed sample_args_precondition sample_args_fit).
Defined.

(** The log of the loop, row by row. *)
Lemma copy_rows_log_exact n ds (r : nat) : forall m log dp sp,
  snd (copy_rows r m log dp sp n ds)
  = log ++ map (fun j : nat => mkAccess (dp + Z.of_nat j * ds) (sp + Z.of_nat j * n) n)
             (seq 0 r).
Proof.
  induction r as [|r IH]; intros m log dp sp.
  - simpl. now rewrite app_nil_r.
  - simpl copy_rows. rewrite IH, <- app_assoc. f_equal.
    simpl. rewrite !Z.add_0_r. f_equal.
    rewrite <- seq_shift, map_map.
    apply map_ext. intros j. f_equal; lia.
Qed.

Lemma copied_bytes_rows (f : nat -> access) n (r : nat) :
  (forall j, acc_len (f j) = n) ->
  copied_bytes (map f (seq 0 r)) = Z.of_nat r * n.
Proof.
  intros Hlen. unfold copied_bytes. generalize 0%nat as start.
  induction r as [|r IH]; intros start; [reflexivity|].
  simpl seq. simpl map. simpl fold_right. rewrite IH, Hlen. lia.
Qed.

(** X4. Under the preconditions, within [unsigned int], the call performs
    one [memcpy] per source row, from the start of that row to the column
    [dst_pos.x] of the destination row [dst_pos.y + j], in this order; the
    bytes copied add up to [src.size()]. *)
Theorem copy_reads_each_source_row_once (m : memory) (a : copy_args) :
  well_typed a -> precondition a -> fits_unsigned a ->
  copy_2d_region_accesses m a = row_copies a
  /\ copied_bytes (copy_2d_region_accesses m a) = size (src a).
Proof.
  intros Hwt Hpre Hfit.
  pose proof (row_count_exact a Hwt Hpre) as Hrows.
  assert (Hlog : copy_2d_region_accesses m a = row_copies a).
  { unfold copy_2d_region_accesses, row_copies.
    destruct (Z.eq_dec (y (src_size a)) 0) as [E0|Hne].
    - unfold copy_2d_region_run. rewrite E0. reflexivity.
    - assert (Hpos : 0 < y (src_size a))
        by (destruct Hpre as [[? ?] _ _ _ _ _ _ _]; lia).
      rewrite (run_exact a Hwt Hpre Hfit) by exact Hpos.
      rewrite copy_rows_log_exact. simpl app.
      assert (Hy : Int.to_unsigned (y (src_size a)) = y (src_size a)) by lia.
      rewrite Hy. apply map_ext. intros j. unfold byte_offset.
      f_equal; ring. }
  split; [exact Hlog|].
  rewrite Hlog. unfold row_copies.
  rewrite copied_bytes_rows
    with (n := x (src_size a) * item_size_in_bytes a) by reflexivity.
  destruct Hpre as [[? ?] _ _ _ _ Hs _ _]. rewrite Hs, Z2Nat.id by lia. ring.
Qed.

Lemma copy_reads_each_source_row_once_witness :
  copy_2d_region_accesses sample_memory sample_args = row_copies sample_args
  /\ copied_bytes (copy_2d_region_accesses sample_memory sample_args)
     = size (src sample_args).
Proof.
  exact (copy_reads_each_source_row_once sample_memory sample_args
           sample_args_well_typed sample_args_precondition sample_args_fit).
Defined.



(** Without the bound on the sums the assertions accept a block that sticks
    out of the destination: the sum [dst_pos.x + src_size.x] wraps to a
    negative [int]. *)
Example assertions_accept_wrapped_sum :
  let a := mkCopyArgs (mkSpan 0 0) (mkVector2i 0 0) (mkSpan 100 0)
             (mkVector2i 1 0) (mkVector2i Int.INT_MAX 0) 1 in
  well_typed a /\ fits_unsigned a /\ debug_asserts a = true
  /\ ~ (x (dst_pos a) + x (src_size a) <= x (dst_size a)).
Proof.
  split; [constructor; cbv; intuition discriminate|].
  split; [cbv; discriminate|]. split; [reflexivity|]. cbv. intros H. now apply H.
Qed.

(** X6. Two blocks copied one after the other into target rectangles of the
    same destination that have no pixel in common are both in place at the
    end: the second call leaves the first block as the first call wrote it,
    and reads its own source as it was before the first call. *)
Theorem copies_into_separate_rectangles_coexist
    (m : memory) (a1 a2 : copy_args) :
  well_typed a1 -> precondition a1 -> fits_unsigned a1 ->
  well_typed a2 -> precondition a2 -> fits_unsigned a2 ->
  same_destination a1 a2 -> rectangles_apart a1 a2 ->
  let m' :=
    copy_2d_region_from_packed_to_atlased
      (copy_2d_region_from_packed_to_atlased m a1) a2 in
  (forall X Y b,
     0 <= X < x (src_size a1) -> 0 <= Y < y (src_size a1) ->
     0 <= b < item_size_in_bytes a1 ->
     span_get m' (dst a1)
       (byte_offset (x (dst_size a1)) (item_size_in_bytes a1)
          (x (dst_pos a1) + X) (y (dst_pos a1) + Y) b)
     = span_get m (src a1)
         (byte_offset (x (src_size a1)) (item_size_in_bytes a1) X Y b))
  /\ (forall X Y b,
        0 <= X < x (src_size a2) -> 0 <= Y < y (src_size a2) ->
        0 <= b < item_size_in_bytes a2 ->
        span_get m' (dst a2)
          (byte_offset (x (dst_size a2)) (item_size_in_bytes a2)
             (x (dst_pos a2) + X) (y (dst_pos a2) + Y) b)
        = span_get m (src a2)
            (byte_offset (x (src_size a2)) (item_size_in_bytes a2) X Y b)).
Proof.
  intros Hwt1 Hpre1 Hfit1 Hwt2 Hpre2 Hfit2 (Hdst & Hsize & Hitem) Hapart m'.
  assert (Hrow : forall a m0, well_typed a -> precondition a -> fits_unsigned a ->
            forall X Y b,
              0 <= X < x (src_size a) -> 0 <= Y < y (src_size a) ->
              0 <= b < item_size_in_bytes a ->
              copy_2d_region_from_packed_to_atlased m0 a
                (data (dst a)
                 + byte_offset (x (dst_size a)) (item_size_in_bytes a)
                     (x (dst_pos a) + X) (y (dst_pos a) + Y) b)
              = m0 (data (src a)
                    + byte_offset (x (src_size a)) (item_size_in_bytes a) X Y b)).
  { intros a m0 Hwt Hpre Hfit X Y b HX HY Hb. unfold byte_offset.
    replace (data (dst a)
             + (((y (dst_pos a) + Y) * x (dst_size a) + (x (dst_pos a) + X))
                * item_size_in_bytes a + b))
      with (data (dst a)
            + (x (dst_pos a) + y (dst_pos a) * x (dst_size a))
              * item_size_in_bytes a
            + Y * (x (dst_size a) * item_size_in_bytes a)
            + (X * item_size_in_bytes a + b)) by ring.
    rewrite (written_from_source a Hwt Hpre Hfit) by nia.
    f_equal. ring. }
  split; intros X Y b HX HY Hb; unfold m', span_get.
  - (* the first block survives the second call *)
    rewrite <- (Hrow a1 m Hwt1 Hpre1 Hfit1 X Y b HX HY Hb).
    rewrite Hdst, Hsize, Hitem.
    apply (unwritten_kept a2 Hwt2 Hpre2 Hfit2). intros j Hj.
    apply (outside_pixel_unwritten a2 Hpre2).
    + rewrite <- Hsize. destruct Hpre1 as [_ _ [? ?] Hx _ _ _ _]. lia.
    + now rewrite <- Hitem.
    + exact Hj.
    + unfold rectangles_apart in Hapart. lia.
  - (* the second block is copied from an untouched source *)
    rewrite (Hrow a2 _ Hwt2 Hpre2 Hfit2 X Y b HX HY Hb).
    apply (unwritten_kept a1 Hwt1 Hpre1 Hfit1). intros j Hj Hrow1.
    pose proof (row_inside_dst a1 Hwt1 Hpre1 j _ Hj Hrow1) as Hin.
    rewrite Hdst in Hin.
    destruct Hpre2 as [[? ?] _ _ _ _ Hs _ Hov].
    unfold overlaps in Hov. apply andb_false_iff in Hov.
    rewrite !Z.ltb_ge in Hov.
    assert (0 <= byte_offset (x (src_size a2)) (item_size_in_bytes a2) X Y b
            < size (src a2)).
    { rewrite Hs. unfold byte_offset.
      assert (Y * x (src_size a2) + X + 1 <= x (src_size a2) * y (src_size a2))
        by nia.
      assert (0 <= Y * x (src_size a2) + X) by nia.
      nia. }
    lia.
Qed.

Lemma copies_into_separate_rectangles_coexist_witness :
  let m' :=
    copy_2d_region_from_packed_to_atlased
      (copy_2d_region_from_packed_to_atlased sample_memory sample_args)
      second_args in
  (forall X Y b,
     0 <= X < x (src_size sample_args) -> 0 <= Y < y (src_size sample_args) ->
     0 <= b < item_size_in_bytes sample_args ->
     span_get m' (dst sample_args)
       (byte_offset (x (dst_size sample_args)) (item_size_in_bytes sample_args)
          (x (dst_pos sample_args) + X) (y (dst_pos sample_args) + Y) b)
     = span_get sample_memory (src sample_args)
         (byte_offset (x (src_size sample_args))
            (item_size_in_bytes sample_args) X Y b))
  /\ (forall X Y b,
        0 <= X < x (src_size second_args) -> 0 <= Y < y (src_size second_args) ->
        0 <= b < item_size_in_bytes second_args ->
        span_get m' (dst second_args)
          (byte_offset (x (dst_size second_args)) (item_size_in_bytes second_args)
             (x (dst_pos second_args) + X) (y (dst_pos second_args) + Y) b)
        = span_get sample_memory (src second_args)
            (byte_offset (x (src_size second_args))
               (item_size_in_bytes second_args) X Y b)).
Proof.
  apply (copies_into_separate_rectangles_coexist sample_memory
           sample_args second_args
           sample_args_well_typed sample_args_precondition sample_args_fit
           second_args_well_typed second_args_precondition second_args_fit).
  - repeat split.
  - unfold rectangles_apart. simpl. lia.
Defined.

(** ** More on get_square_grid_size_from_item_count *)

Lemma grid_size_value n :
  Int.is_uint n -> get_square_grid_size_from_item_count n = Some (Z.sqrt_up n).
Proof.
  intros [Hlo Hhi]. unfold Int.UINT_MAX, Int.uint_modulus in Hhi.
  destruct n as [|p|p]; [reflexivity| |lia].
  apply grid_size_of_positive. lia.
Qed.

(** X7. More items never need a smaller grid: the result is monotone in the
    item count. *)
Theorem square_grid_size_monotone (n1 n2 : Z) :
  Int.is_uint n1 -> Int.is_uint n2 -> n1 <= n2 ->
  exists s1 s2,
    get_square_grid_size_from_item_count n1 = Some s1
    /\ get_square_grid_size_from_item_count n2 = Some s2
    /\ s1 <= s2.
Proof.
  intros H1 H2 Hle.
  exists (Z.sqrt_up n1), (Z.sqrt_up n2).
  split; [now apply grid_size_value|].
  split; [now apply grid_size_value|].
  now apply Z.sqrt_up_le_mono.
Qed.

Lemma square_grid_size_monotone_witness :
  exists s1 s2,
    get_square_grid_size_from_item_count 16 = Some s1
    /\ get_square_grid_size_from_item_count 17 = Some s2
    /\ s1 <= s2.
Proof.
  apply (square_grid_size_monotone 16 17);
    unfold Int.is_uint, Int.UINT_MAX, Int.uint_modulus; lia.
Defined.

(** X8. The rounding of the square root never shows: a full [k x k] grid of
    items gets the side [k] back, and one more item gets [k + 1], for every
    [k] up to 65535. *)
Theorem square_grid_size_of_full_grid (k : Z) :
  0 <= k <= 65535 ->
  get_square_grid_size_from_item_count (k * k) = Some k
  /\ get_square_grid_size_from_item_count (k * k + 1) = Some (k + 1).
Proof.
  intros Hk.
  assert (Hsq : 0 <= k * k <= 65535 * 65535)
    by (split; [apply Z.mul_nonneg_nonneg|apply Z.mul_le_mono_nonneg]; lia).
  split.
  - rewrite grid_size_value
      by (unfold Int.is_uint, Int.UINT_MAX, Int.uint_modulus; lia).
    f_equal. apply Z.sqrt_up_square. lia.
  - rewrite grid_size_value
      by (unfold Int.is_uint, Int.UINT_MAX, Int.uint_modulus; lia).
    f_equal. apply Z.sqrt_up_unique; [lia|].
    unfold Z.pred. replace (k + 1 + -1) with k by lia. nia.
Qed.

Lemma square_grid_size_of_full_grid_witness :
  get_square_grid_size_from_item_count (65535 * 65535) = Some 65535
  /\ get_square_grid_size_from_item_count (65535 * 65535 + 1) = Some (65535 + 1).
Proof.
  apply (square_grid_size_of_full_grid 65535). lia.
Defined.

(** X9. The result never exceeds 65536, and it is 65536 exactly for the
    counts above [65535 * 65535], the only ones whose grid has more cells
    than [unsigned int] counts. *)
Theorem square_grid_size_at_most_65536 (item_count : Z) :
  Int.is_uint item_count ->
  exists n,
    get_square_grid_size_from_item_count item_count = Some n
    /\ 0 <= n <= 65536
    /\ (n = 65536 <-> 65535 * 65535 < item_count).
Proof.
  intros Hu. exists (Z.sqrt_up item_count).
  split; [now apply grid_size_value|].
  destruct Hu as [Hmin Hmax]. unfold Int.UINT_MAX, Int.uint_modulus in Hmax.
  pose proof (Z.sqrt_up_nonneg item_count) as H0.
  destruct (Z.eq_dec item_count 0) as [->|Hne].
  - change (Z.sqrt_up 0) with 0. lia.
  - pose proof (Z.sqrt_up_spec item_count ltac:(lia)) as [Hlo Hhi].
    unfold Z.pred in Hlo.
    set (n := Z.sqrt_up item_count) in *.
    assert (Hle : n <= 65536).
    { destruct (Z_le_gt_dec n 65536) as [|Hgt]; [assumption|exfalso].
      assert (65536 * 65536 <= (n + -1) * (n + -1))
        by (apply Z.mul_le_mono_nonneg; lia).
      lia. }
    split; [lia|]. split.
    + intros E. rewrite E in Hlo. lia.
    + intros Hbig. destruct (Z.eq_dec n 65536) as [|Hn]; [assumption|exfalso].
      assert (n * n <= 65535 * 65535) by (apply Z.mul_le_mono_nonneg; lia).
      lia.
Qed.

Lemma square_grid_size_at_most_65536_witness :
  exists n,
    get_square_grid_size_from_item_count 4294836226 = Some n
    /\ 0 <= n <= 65536
    /\ (n = 65536 <-> 65535 * 65535 < 4294836226).
Proof.
  apply (square_grid_size_at_most_65536 4294836226).
  unfold Int.is_uint, Int.UINT_MAX, Int.uint_modulus. lia.
Defined.
